(** * IntlProvider: configuration normalisation, change detection and
      context construction (src/components/provider.tsx)

    A shallow embedding of [setTimeZoneInOptions], [processIntlConfig],
    [createIntl] and the [IntlProvider] lifecycle over a small model of the
    JavaScript object store.  Objects live in a store and are named by
    locations, so that reference identity ([===] on objects), aliasing and
    fresh allocation are all visible: the provider's change detection
    compares normalised configurations field by field with [===].

    What the model leaves out: prototype chains and accessors (objects are
    their own enumerable data properties), symbols, and exceptions.  The
    functions embedded here contain no [throw]; in the language they can
    only fail inside what they call, and the three things they call from
    outside are taken at their interface: the locale-availability
    predicate answers with a boolean, the error sink returns, and string
    conversion yields a string.  A configuration handed to
    [processIntlConfig] is an object of the store, as its type and the
    host guarantee. *)

From stdpp Require Import base option list strings gmap fin_maps pretty.

Open Scope string_scope.
Open Scope list_scope.
Open Scope nat_scope.

(** ** Values and the object store *)

Definition loc := nat.

(** Finite numbers are only ever copied around or tested for truthiness by
    this module, so they are represented by integers; [VNaN] is kept apart
    because it is falsy and differs from itself under [===]. *)
Inductive value : Type :=
  | VUndefined
  | VNull
  | VBool (b : bool)
  | VNaN
  | VNum (z : Z)
  | VStr (s : string)
  | VRef (l : loc).

Global Instance value_eq_dec : EqDecision value.
Proof. solve_decision. Defined.

(** What makes a store cell callable. *)
Inductive code : Type :=
  | Opaque
      (* a function written by the caller, for instance [onError] *)
  | Memoized (ctor : string) (cache : value)
      (* an accessor made by [createFormatters] over a cache slot *)
  | BoundTo (target : string) (args : list value).
      (* [target.bind(null, args...)] for an imported function *)

(** A cell holds the own enumerable properties of an object and, for a
    function object, its code.  Properties form a finite map: the order of
    the keys is not observed by any result below. *)
Record cell : Type := Cell {
  own : gmap string value;
  fn : option code;
}.

(** One recorded call of a caller-supplied function. *)
Record call : Type := Call {
  callee : value;
  arguments : list value;
}.

Record world : Type := World {
  heap : list cell;
  calls : list call;
}.

(** [if (v)] *)
Definition truthy (v : value) : bool :=
  match v with
  | VUndefined | VNull | VNaN => false
  | VBool b => b
  | VNum z => negb (z =? 0)%Z
  | VStr s => negb (String.eqb s "")
  | VRef _ => true
  end.

(** [a === b] *)
Definition strict_eq (a b : value) : bool :=
  match a, b with
  | VUndefined, VUndefined => true
  | VNull, VNull => true
  | VBool x, VBool y => Bool.eqb x y
  | VNum x, VNum y => (x =? y)%Z
  | VStr x, VStr y => String.eqb x y
  | VRef x, VRef y => Nat.eqb x y
  | _, _ => false
  end.

(** The own enumerable properties of a value, as seen by [Object.keys],
    by spread and by a property read.  A string exposes its code units
    under their indices; the other primitives expose nothing. *)
Definition own_props (h : list cell) (v : value) : gmap string value :=
  match v with
  | VRef l => match h !! l with Some c => own c | None => ∅ end
  | VStr s =>
      list_to_map
        (imap (λ i c, (pretty i, VStr (String c EmptyString)))
              (String.list_ascii_of_string s))
  | _ => ∅
  end.

(** [v[k]] and [v.k]; a property that is not there reads as [undefined]. *)
Definition get_prop (h : list cell) (v : value) (k : string) : value :=
  default VUndefined (own_props h v !! k).

Definition has_own (h : list cell) (v : value) (k : string) : bool :=
  bool_decide (is_Some (own_props h v !! k)).

(** [typeof v === 'function'] *)
Definition is_function (h : list cell) (v : value) : bool :=
  match v with
  | VRef l => match h !! l with
              | Some c => bool_decide (is_Some (fn c))
              | None => false
              end
  | _ => false
  end.

(** ** The monad of store-passing computations *)

Definition M (A : Type) : Type := world → A * world.

Definition ret {A} (a : A) : M A := λ w, (a, w).

Definition bind {A B} (m : M A) (f : A → M B) : M B :=
  λ w, let '(a, w') := m w in f a w'.

Notation "x <- m ;; k" := (bind m (λ x, k))
  (at level 100, m at next level, right associativity,
   format "'[v' x  <-  m  ;;  '/' k ']'").
Notation "m ;; k" := (bind m (λ _, k))
  (at level 100, right associativity).

(** Allocation of a fresh cell at the end of the store. *)
Definition new_cell (c : cell) : M loc :=
  λ w, (length (heap w), World (heap w ++ [c]) (calls w)).

(** A plain object with the given properties. *)
Definition new_object (ps : gmap string value) : M loc :=
  new_cell (Cell ps None).

(** [v.k] *)
Definition read (v : value) (k : string) : M value :=
  λ w, (get_prop (heap w) v k, w).

(** The properties copied by [...v]. *)
Definition spread (v : value) : M (gmap string value) :=
  λ w, (own_props (heap w) v, w).

(** [Object.keys(v)] *)
Definition keys (v : value) : M (list string) :=
  λ w, ((map_to_list (own_props (heap w) v)).*1, w).

(** [o[k] = v] on an object of the store. *)
Definition assign (o : loc) (k : string) (v : value) : M unit :=
  λ w, (tt, World (alter (λ c, Cell (<[k:=v]> (own c)) (fn c)) o (heap w))
                  (calls w)).

(** [typeof v === 'function'] *)
Definition typeof_function (v : value) : M bool :=
  λ w, (is_function (heap w) v, w).

(** A call [f(args)] of a caller-supplied function whose result is not
    used.  Its body is the caller's; the call is recorded.  The error sink
    is specified as reporting only: it returns to its caller. *)
Definition invoke (f : value) (args : list value) : M unit :=
  λ w, (tt, World (heap w) (calls w ++ [Call f args])).

(** [l.reduce(f, a)] *)
Fixpoint reduce {A B} (f : A → B → M A) (l : list B) (a : A) : M A :=
  match l with
  | [] => ret a
  | x :: l' => a' <- f a x ;; reduce f l' a'
  end.

(** ** Normalisation *)

(** The callback of the [reduce] of lines 59-68: [all[k] = {timeZone,
    ...opts[k]}; return all]. *)
Definition setTimeZone_callback (opts timeZone : value) (all : loc)
    (k : string) : M loc :=
  preset <- read opts k ;;
  ps <- spread preset ;;
  o <- new_object (ps ∪ {["timeZone" := timeZone]}) ;;
  assign all k (VRef o) ;;
  ret all.

(** [setTimeZoneInOptions(opts, timeZone)], lines 55-69. *)
Definition setTimeZoneInOptions (opts timeZone : value) : M value :=
  ks <- keys opts ;;
  init <- new_object ∅ ;;
  all <- reduce (setTimeZone_callback opts timeZone) ks init ;;
  ret (VRef all).

(** [processIntlConfig(config)], lines 71-117.  The two [let] variables
    [formats] and [defaultFormats] that the source reassigns are threaded
    through as a pair. *)
Definition processIntlConfig (config : loc) : M loc :=
  formats <- read (VRef config) "formats" ;;
  defaultFormats <- read (VRef config) "defaultFormats" ;;
  timeZone <- read (VRef config) "timeZone" ;;
  fs <-
    (if truthy timeZone then
       formats <-
         (if truthy formats then
            dateFormats <- read formats "date" ;;
            timeFormats <- read formats "time" ;;
            formats <-
              (if truthy dateFormats then
                 ps <- spread formats ;;
                 d <- setTimeZoneInOptions dateFormats timeZone ;;
                 o <- new_object (<["date" := d]> ps) ;;
                 ret (VRef o)
               else ret formats) ;;
            (if truthy timeFormats then
               ps <- spread formats ;;
               t <- setTimeZoneInOptions timeFormats timeZone ;;
               o <- new_object (<["time" := t]> ps) ;;
               ret (VRef o)
             else ret formats)
          else ret formats) ;;
       defaultFormats <-
         (if truthy defaultFormats then
            dateFormats <- read defaultFormats "date" ;;
            timeFormats <- read defaultFormats "time" ;;
            defaultFormats <-
              (if truthy dateFormats then
                 ps <- spread defaultFormats ;;
                 d <- setTimeZoneInOptions dateFormats timeZone ;;
                 o <- new_object (<["date" := d]> ps) ;;
                 ret (VRef o)
               else ret defaultFormats) ;;
            (if truthy timeFormats then
               ps <- spread defaultFormats ;;
               t <- setTimeZoneInOptions timeFormats timeZone ;;
               o <- new_object (<["time" := t]> ps) ;;
               ret (VRef o)
             else ret defaultFormats)
          else ret defaultFormats) ;;
       ret (formats, defaultFormats)
     else ret (formats, defaultFormats)) ;;
  locale <- read (VRef config) "locale" ;;
  textComponent <- read (VRef config) "textComponent" ;;
  messages <- read (VRef config) "messages" ;;
  defaultLocale <- read (VRef config) "defaultLocale" ;;
  onError <- read (VRef config) "onError" ;;
  new_object
    (<["onError" := onError]>
       (<["defaultFormats" := fs.2]>
          (<["defaultLocale" := defaultLocale]>
             (<["messages" := messages]>
                (<["textComponent" := textComponent]>
                   (<["formats" := fs.1]>
                      (<["timeZone" := timeZone]>
                         (<["locale" := locale]> ∅)))))))).

(** The field names of a normalised configuration, in the order of the
    object literal of lines 107-116. *)
Definition canonical_fields : list string :=
  ["locale"; "timeZone"; "formats"; "textComponent"; "messages";
   "defaultLocale"; "defaultFormats"; "onError"].

(** ** Change detection *)

(** The comparison of the package shallow-equal/objects, which the provider
    imports as [shallowEquals]: same reference, or two objects with as many
    own keys whose values under the keys of the first are pairwise [===]. *)
Definition shallow_equal (h : list cell) (a b : value) : bool :=
  if strict_eq a b then true
  else if negb (truthy a) || negb (truthy b) then false
  else
    let aKeys := (map_to_list (own_props h a)).*1 in
    let bKeys := (map_to_list (own_props h b)).*1 in
    if negb (Nat.eqb (length bKeys) (length aKeys)) then false
    else forallb (λ key, strict_eq (get_prop h a key) (get_prop h b key)) aKeys.

Definition shallowEquals (a b : value) : M bool :=
  λ w, (shallow_equal (heap w) a b, w).

(** ** Context construction *)

(** Modelled from the spec: [createIntlCache] lives in utils, which is not
    among the sources.  The formatter cache is a store of its own, empty
    when it is created and filled lazily by the formatters. *)
Definition createIntlCache : M value :=
  o <- new_object ∅ ;;
  ret (VRef o).

(** Modelled from the spec: [createFormatters] lives in utils, which is not
    among the sources.  It makes the accessors that [createIntl] reads from
    its result, each one memoising a native constructor in the cache it is
    given, and makes a fresh cache when none is supplied. *)
Definition createFormatters (cache : value) : M value :=
  cache <- (if decide (cache = VUndefined) then createIntlCache
            else ret cache) ;;
  getDateTimeFormat <- new_cell (Cell ∅ (Some (Memoized "DateTimeFormat" cache))) ;;
  getNumberFormat <- new_cell (Cell ∅ (Some (Memoized "NumberFormat" cache))) ;;
  getRelativeTimeFormat <-
    new_cell (Cell ∅ (Some (Memoized "RelativeTimeFormat" cache))) ;;
  getPluralRules <- new_cell (Cell ∅ (Some (Memoized "PluralRules" cache))) ;;
  o <- new_object
         (<["getPluralRules" := VRef getPluralRules]>
            (<["getRelativeTimeFormat" := VRef getRelativeTimeFormat]>
               (<["getNumberFormat" := VRef getNumberFormat]>
                  (<["getDateTimeFormat" := VRef getDateTimeFormat]> ∅)))) ;;
  ret (VRef o).

(** [target.bind(null, ...args)] for a function imported from the
    formatters modules. *)
Definition bind_imported (target : string) (args : list value) : M value :=
  f <- new_cell (Cell ∅ (Some (BoundTo target args))) ;;
  ret (VRef f).

(** The double quote of the message text. *)
Definition dquote : string := String (Ascii.ascii_of_nat 34) EmptyString.

Section Provider.

(** [DEFAULT_INTL_CONFIG] of utils: a reference to the object of the
    system defaults. *)
Variable DEFAULT_INTL_CONFIG : value.

(** The package intl-locales-supported: the locale-availability
    predicate. *)
Variable areIntlLocalesSupported : value → bool.

(** [createError] of utils: wraps a message text into the error value
    handed to [onError]. *)
Variable createError : string → value.

(** The language's string conversion on the values other than strings
    and [undefined] (that of an object runs the object's own method). *)
Variable ToString : value → string.

(** [`${v}`] *)
Definition template_text (v : value) : string :=
  match v with
  | VStr s => s
  | VUndefined => "undefined"
  | _ => ToString v
  end.

(** The message of lines 171-172. *)
Definition missing_locale_message (locale defaultLocale : value) : string :=
  "Missing locale data for locale: " +:+ dquote +:+ template_text locale
    +:+ dquote +:+ ". " +:+
  "Using default locale: " +:+ dquote +:+ template_text defaultLocale
    +:+ dquote +:+ " as fallback.".

(** [createIntl(config, cache)], lines 157-230. *)
Definition createIntl (config cache : value) : M value :=
  formatters <- createFormatters cache ;;
  defaults <- spread DEFAULT_INTL_CONFIG ;;
  given <- spread config ;;
  resolvedConfig <- new_object (given ∪ defaults) ;;
  requested <- read (VRef resolvedConfig) "locale" ;;
  (if negb (truthy requested) || negb (areIntlLocalesSupported requested)
   then
     locale <- read (VRef resolvedConfig) "locale" ;;
     defaultLocale <- read (VRef resolvedConfig) "defaultLocale" ;;
     onError <- read (VRef resolvedConfig) "onError" ;;
     callable <- typeof_function onError ;;
     (if callable then
        invoke onError
          [createError (missing_locale_message locale defaultLocale)]
      else ret tt) ;;
     fallback <- read (VRef resolvedConfig) "defaultLocale" ;;
     assign resolvedConfig "locale"
       (if truthy fallback then fallback else VStr "en")
   else ret tt) ;;
  fields <- spread (VRef resolvedConfig) ;;
  getNumberFormat <- read formatters "getNumberFormat" ;;
  formatNumber <-
    bind_imported "formatNumber" [VRef resolvedConfig; getNumberFormat] ;;
  getNumberFormat <- read formatters "getNumberFormat" ;;
  formatNumberToParts <-
    bind_imported "formatNumberToParts"
      [VRef resolvedConfig; getNumberFormat] ;;
  getRelativeTimeFormat <- read formatters "getRelativeTimeFormat" ;;
  formatRelativeTime <-
    bind_imported "formatRelativeTime"
      [VRef resolvedConfig; getRelativeTimeFormat] ;;
  getDateTimeFormat <- read formatters "getDateTimeFormat" ;;
  formatDate <-
    bind_imported "formatDate" [VRef resolvedConfig; getDateTimeFormat] ;;
  getDateTimeFormat <- read formatters "getDateTimeFormat" ;;
  formatDateToParts <-
    bind_imported "formatDateToParts"
      [VRef resolvedConfig; getDateTimeFormat] ;;
  getDateTimeFormat <- read formatters "getDateTimeFormat" ;;
  formatTime <-
    bind_imported "formatTime" [VRef resolvedConfig; getDateTimeFormat] ;;
  getDateTimeFormat <- read formatters "getDateTimeFormat" ;;
  formatTimeToParts <-
    bind_imported "formatTimeToParts"
      [VRef resolvedConfig; getDateTimeFormat] ;;
  getPluralRules <- read formatters "getPluralRules" ;;
  formatPlural <-
    bind_imported "formatPlural" [VRef resolvedConfig; getPluralRules] ;;
  formatMessage <-
    bind_imported "formatMessage" [VRef resolvedConfig; formatters] ;;
  formatHTMLMessage <-
    bind_imported "formatHTMLMessage" [VRef resolvedConfig; formatters] ;;
  intl <- new_object
    (<["formatHTMLMessage" := formatHTMLMessage]>
    (<["formatMessage" := formatMessage]>
    (<["formatPlural" := formatPlural]>
    (<["formatTimeToParts" := formatTimeToParts]>
    (<["formatTime" := formatTime]>
    (<["formatDateToParts" := formatDateToParts]>
    (<["formatDate" := formatDate]>
    (<["formatRelativeTime" := formatRelativeTime]>
    (<["formatNumberToParts" := formatNumberToParts]>
    (<["formatNumber" := formatNumber]>
    (<["formatters" := formatters]> fields))))))))))) ;;
  ret (VRef intl).

(** The two halves of [createIntl] that follow the merge, named so
    that they can be reasoned about one at a time; [createIntl_unfold]
    below shows that [createIntl] is made of them. *)

(** Lines 163-183. *)
Definition locale_fallback (resolvedConfig : loc) : M unit :=
  requested <- read (VRef resolvedConfig) "locale" ;;
  if negb (truthy requested) || negb (areIntlLocalesSupported requested)
  then
    locale <- read (VRef resolvedConfig) "locale" ;;
    defaultLocale <- read (VRef resolvedConfig) "defaultLocale" ;;
    onError <- read (VRef resolvedConfig) "onError" ;;
    callable <- typeof_function onError ;;
    (if callable then
       invoke onError
         [createError (missing_locale_message locale defaultLocale)]
     else ret tt) ;;
    fallback <- read (VRef resolvedConfig) "defaultLocale" ;;
    assign resolvedConfig "locale"
      (if truthy fallback then fallback else VStr "en")
  else ret tt.

(** Lines 184-229. *)
Definition context_of (resolvedConfig : loc) (formatters : value)
  : M value :=
  fields <- spread (VRef resolvedConfig) ;;
  getNumberFormat <- read formatters "getNumberFormat" ;;
  formatNumber <-
    bind_imported "formatNumber" [VRef resolvedConfig; getNumberFormat] ;;
  getNumberFormat <- read formatters "getNumberFormat" ;;
  formatNumberToParts <-
    bind_imported "formatNumberToParts"
      [VRef resolvedConfig; getNumberFormat] ;;
  getRelativeTimeFormat <- read formatters "getRelativeTimeFormat" ;;
  formatRelativeTime <-
    bind_imported "formatRelativeTime"
      [VRef resolvedConfig; getRelativeTimeFormat] ;;
  getDateTimeFormat <- read formatters "getDateTimeFormat" ;;
  formatDate <-
    bind_imported "formatDate" [VRef resolvedConfig; getDateTimeFormat] ;;
  getDateTimeFormat <- read formatters "getDateTimeFormat" ;;
  formatDateToParts <-
    bind_imported "formatDateToParts"
      [VRef resolvedConfig; getDateTimeFormat] ;;
  getDateTimeFormat <- read formatters "getDateTimeFormat" ;;
  formatTime <-
    bind_imported "formatTime" [VRef resolvedConfig; getDateTimeFormat] ;;
  getDateTimeFormat <- read formatters "getDateTimeFormat" ;;
  formatTimeToParts <-
    bind_imported "formatTimeToParts"
      [VRef resolvedConfig; getDateTimeFormat] ;;
  getPluralRules <- read formatters "getPluralRules" ;;
  formatPlural <-
    bind_imported "formatPlural" [VRef resolvedConfig; getPluralRules] ;;
  formatMessage <-
    bind_imported "formatMessage" [VRef resolvedConfig; formatters] ;;
  formatHTMLMessage <-
    bind_imported "formatHTMLMessage" [VRef resolvedConfig; formatters] ;;
  intl <- new_object
    (<["formatHTMLMessage" := formatHTMLMessage]>
    (<["formatMessage" := formatMessage]>
    (<["formatPlural" := formatPlural]>
    (<["formatTimeToParts" := formatTimeToParts]>
    (<["formatTime" := formatTime]>
    (<["formatDateToParts" := formatDateToParts]>
    (<["formatDate" := formatDate]>
    (<["formatRelativeTime" := formatRelativeTime]>
    (<["formatNumberToParts" := formatNumberToParts]>
    (<["formatNumber" := formatNumber]>
    (<["formatters" := formatters]> fields))))))))))) ;;
  ret (VRef intl).

(** A field of the resolved configuration: the object
    [{...DEFAULT_INTL_CONFIG, ...config}] of line 162, read in the
    store [h]. *)
Definition resolved (h : list cell) (config : value) (k : string) : value :=
  default VUndefined
    ((own_props h config ∪ own_props h DEFAULT_INTL_CONFIG) !! k).

(** The test of lines 163-166. *)
Definition falls_back (h : list cell) (config : value) : bool :=
  negb (truthy (resolved h config "locale"))
  || negb (areIntlLocalesSupported (resolved h config "locale")).

(** The right-hand side of line 182. *)
Definition fallback_locale (h : list cell) (config : value) : value :=
  if truthy (resolved h config "defaultLocale")
  then resolved h config "defaultLocale" else VStr "en".

(** The merged properties, after the fallback if there is one. *)
Definition resolved_fields (h : list cell) (config : value)
  : gmap string value :=
  if falls_back h config
  then <["locale" := fallback_locale h config]>
         (own_props h config ∪ own_props h DEFAULT_INTL_CONFIG)
  else own_props h config ∪ own_props h DEFAULT_INTL_CONFIG.

(** The calls, after the report of the fallback if there is one. *)
Definition reported (h : list cell) (config : value) (cl : list call)
  : list call :=
  if falls_back h config && is_function h (resolved h config "onError")
  then cl ++ [Call (resolved h config "onError")
                [createError
                   (missing_locale_message (resolved h config "locale")
                      (resolved h config "defaultLocale"))]]
  else cl.

(** ** The provider *)

(** [interface State], lines 32-47. *)
Record State : Type := mkState {
  cache : value;
  intl : value;
  prevConfig : value;
}.

(** The [Partial<State>] that [getDerivedStateFromProps] returns when it
    returns one: it carries [intl] and [prevConfig] and no [cache]. *)
Record Update : Type := mkUpdate {
  next_intl : value;
  next_prevConfig : value;
}.

(** The field initialisers of a new [IntlProvider], lines 125-130.  The
    properties are those that the host hands over, its resolution of
    [defaultProps] included. *)
Definition mount (props : loc) : M State :=
  this_cache <- createIntlCache ;;
  config <- processIntlConfig props ;;
  intl <- createIntl (VRef config) this_cache ;;
  prevConfig <- processIntlConfig props ;;
  ret (mkState this_cache intl (VRef prevConfig)).

(** [IntlProvider.getDerivedStateFromProps], lines 132-144; [None] is
    the source's [null]. *)
Definition getDerivedStateFromProps (props : loc) (st : State)
  : M (option Update) :=
  config <- processIntlConfig props ;;
  same <- shallowEquals (prevConfig st) (VRef config) ;;
  if negb same then
    intl <- createIntl (VRef config) (cache st) ;;
    ret (Some (mkUpdate intl (VRef config)))
  else ret None.

(** What the host does with the result: a partial state is merged into
    the state of the component, [null] leaves it as it is. *)
Definition merge_state (st : State) (u : option Update) : State :=
  match u with
  | Some u => mkState (cache st) (next_intl u) (next_prevConfig u)
  | None => st
  end.

(** One configuration event. *)
Definition receive (props : loc) (st : State) : M State :=
  u <- getDerivedStateFromProps props st ;;
  ret (merge_state st u).

(** A provider from its mount through a sequence of configuration
    events; the result lists the state after the mount and after every
    event, oldest first. *)
Fixpoint receive_all (events : list loc) (st : State) : M (list State) :=
  match events with
  | [] => ret []
  | props :: events' =>
      st' <- receive props st ;;
      rest <- receive_all events' st' ;;
      ret (st' :: rest)
  end.

Definition lifetime (props : loc) (events : list loc) : M (list State) :=
  st <- mount props ;;
  rest <- receive_all events st ;;
  ret (st :: rest).

(** ** Notions used to state the properties *)

(** A value that is not a reference to a cell outside the store. *)
Definition validb (h : list cell) (v : value) : bool :=
  match v with
  | VRef l => bool_decide (l < length h)
  | _ => true
  end.

(** A store none of whose objects holds a reference leading outside it,
    as is every store of a running program. *)
Definition closedb (h : list cell) : bool :=
  forallb (λ c, forallb (λ kv, validb h kv.2) (map_to_list (own c))) h.

(** The value a reference leads to, unfolded to a given depth: a plain
    object is its fields, unfolded in turn; a function is its identity.
    Two values are deeply equal when they unfold alike to every depth. *)
#[local] Set Warnings "-register-all".
Inductive tree : Type :=
  | Atom (v : value)
  | Fields (fs : gmap string tree)
  | Beyond.

Fixpoint unfold_value (depth : nat) (h : list cell) (v : value) : tree :=
  match depth with
  | 0 => Beyond
  | S depth' =>
      match v with
      | VRef l =>
          match h !! l with
          | Some (Cell ps None) => Fields (unfold_value depth' h <$> ps)
          | _ => Atom v
          end
      | _ => Atom v
      end
  end.

(** [v] is a plain object of the store with exactly the properties [ps]. *)
Definition plain (h : list cell) (v : value) (ps : gmap string value) : Prop :=
  ∃ l, v = VRef l ∧ h !! l = Some (Cell ps None).

(** The cache that an accessor of a formatters object memoises in. *)
Definition accessor_cache (h : list cell) (formatters : value) (k : string)
  : option value :=
  match get_prop h formatters k with
  | VRef g =>
      match h !! g with
      | Some (Cell _ (Some (Memoized _ c))) => Some c
      | _ => None
      end
  | _ => None
  end.

(** The context [intl] was built over the cache [c]: every accessor of
    its formatters memoises in [c]. *)
Definition built_over (h : list cell) (intl c : value) : Prop :=
  ∀ k, k ∈ ["getDateTimeFormat"; "getNumberFormat"; "getRelativeTimeFormat";
            "getPluralRules"] →
       accessor_cache h (get_prop h intl "formatters") k = Some c.

(** The keys that [createIntl] adds to the resolved configuration. *)
Definition bundle_fields : list string :=
  ["formatters"; "formatNumber"; "formatNumberToParts"; "formatRelativeTime";
   "formatDate"; "formatDateToParts"; "formatTime"; "formatTimeToParts";
   "formatPlural"; "formatMessage"; "formatHTMLMessage"].

(** The statement [if (slotFormats) { formats = {...formats, [slot]:
    setTimeZoneInOptions(slotFormats, timeZone)} }] that lines 78-89 and
    93-104 write four times, and the block of lines 76-90 and 91-105 made
    of two of them; [processIntlConfig_unfold] below shows that
    [processIntlConfig] is made of these. *)
Definition inject_slot (slot : string) (formats slotFormats timeZone : value)
  : M value :=
  if truthy slotFormats then
    ps <- spread formats ;;
    d <- setTimeZoneInOptions slotFormats timeZone ;;
    o <- new_object (<[slot := d]> ps) ;;
    ret (VRef o)
  else ret formats.

Definition inject_formats (formats timeZone : value) : M value :=
  if truthy formats then
    dateFormats <- read formats "date" ;;
    timeFormats <- read formats "time" ;;
    formats <- inject_slot "date" formats dateFormats timeZone ;;
    inject_slot "time" formats timeFormats timeZone
  else ret formats.

Definition inject_both (formats defaultFormats timeZone : value)
  : M (value * value) :=
  if truthy timeZone then
    formats <- inject_formats formats timeZone ;;
    defaultFormats <- inject_formats defaultFormats timeZone ;;
    ret (formats, defaultFormats)
  else ret (formats, defaultFormats).

(** The object literal of lines 107-116. *)
Definition canonical_literal (locale timeZone formats textComponent messages
    defaultLocale defaultFormats onError : value) : gmap string value :=
  <["onError" := onError]>
    (<["defaultFormats" := defaultFormats]>
       (<["defaultLocale" := defaultLocale]>
          (<["messages" := messages]>
             (<["textComponent" := textComponent]>
                (<["formats" := formats]>
                   (<["timeZone" := timeZone]>
                      (<["locale" := locale]> ∅))))))).

(** The properties of every value that [opts] holds lead inside the
    store. *)
Definition props_valid (h : list cell) (opts : value) : Prop :=
  ∀ k x, own_props h opts !! k = Some x → validb h x = true.

(** [r] is the preset map built from [opts]: a plain object with the keys
    of [opts], each leading to a plain object that holds [timeZone] under
    the properties of the original preset. *)
Definition injected (base h : list cell) (tz opts r : value) : Prop :=
  ∃ m, plain h r m ∧
    ∀ k, match own_props base opts !! k with
         | Some p =>
             ∃ o, m !! k = Some o ∧
                  plain h o (own_props base p ∪ {["timeZone" := tz]})
         | None => m !! k = None
         end.

(** A reference to a cell that the store [base] does not have yet. *)
Definition fresh (base : list cell) (v : value) : Prop :=
  ∃ l, v = VRef l ∧ length base ≤ l.

(** What a slot of the result holds, given what it held. *)
Definition slot_injected (base h : list cell) (tz : value)
    (before : option value) (after : option value) : Prop :=
  if truthy (default VUndefined before) then
    ∃ d, after = Some d ∧ injected base h tz (default VUndefined before) d
  else after = before.

(** [f'] is [f] after the block of lines 76-90: [f] itself when there is
    nothing to inject into, a new object otherwise. *)
Definition formats_injected (base h : list cell) (tz f f' : value) : Prop :=
  if truthy f && (truthy (get_prop base f "date")
                  || truthy (get_prop base f "time")) then
    ∃ m, plain h f' m ∧
      (∀ k, k ≠ "date" → k ≠ "time" → m !! k = own_props base f !! k) ∧
      slot_injected base h tz (own_props base f !! "date") (m !! "date") ∧
      slot_injected base h tz (own_props base f !! "time") (m !! "time") ∧
      fresh base f'
  else f' = f.

(** What [inject_both] returns for [formats] and [defaultFormats]. *)
Definition both_injected (base h : list cell) (tz f df : value)
    (r : value * value) : Prop :=
  if truthy tz then
    formats_injected base h tz f r.1 ∧ formats_injected base h tz df r.2
  else r = (f, df).

Definition slot_ok (h : list cell) (v : value) : Prop :=
  validb h v = true ∧ props_valid h v.

Definition formats_ok (h : list cell) (f : value) : Prop :=
  validb h f = true ∧ slot_ok h (get_prop h f "date")
  ∧ slot_ok h (get_prop h f "time").

(** The cells that [createFormatters] adds at location [n] for the cache
    [c]: the four accessors, then the formatters object. *)
Definition formatter_cells (n : nat) (c : value) : list cell :=
  [Cell ∅ (Some (Memoized "DateTimeFormat" c));
   Cell ∅ (Some (Memoized "NumberFormat" c));
   Cell ∅ (Some (Memoized "RelativeTimeFormat" c));
   Cell ∅ (Some (Memoized "PluralRules" c));
   Cell (<["getPluralRules" := VRef (n + 3)]>
        (<["getRelativeTimeFormat" := VRef (n + 2)]>
        (<["getNumberFormat" := VRef (n + 1)]>
        (<["getDateTimeFormat" := VRef n]> ∅)))) None].

(** The cells that lines 184-229 add: the ten bound functions, then the
    context itself. *)
Definition context_cells (h : list cell) (resolvedConfig : loc)
    (formatters : value) : list cell :=
  let bound target k :=
    Cell ∅ (Some (BoundTo target
                    [VRef resolvedConfig; get_prop h formatters k])) in
  let n := length h in
  [bound "formatNumber" "getNumberFormat";
   bound "formatNumberToParts" "getNumberFormat";
   bound "formatRelativeTime" "getRelativeTimeFormat";
   bound "formatDate" "getDateTimeFormat";
   bound "formatDateToParts" "getDateTimeFormat";
   bound "formatTime" "getDateTimeFormat";
   bound "formatTimeToParts" "getDateTimeFormat";
   bound "formatPlural" "getPluralRules";
   Cell ∅ (Some (BoundTo "formatMessage" [VRef resolvedConfig; formatters]));
   Cell ∅ (Some (BoundTo "formatHTMLMessage"
                   [VRef resolvedConfig; formatters]));
   Cell (<["formatHTMLMessage" := VRef (n + 9)]>
        (<["formatMessage" := VRef (n + 8)]>
        (<["formatPlural" := VRef (n + 7)]>
        (<["formatTimeToParts" := VRef (n + 6)]>
        (<["formatTime" := VRef (n + 5)]>
        (<["formatDateToParts" := VRef (n + 4)]>
        (<["formatDate" := VRef (n + 3)]>
        (<["formatRelativeTime" := VRef (n + 2)]>
        (<["formatNumberToParts" := VRef (n + 1)]>
        (<["formatNumber" := VRef n]>
        (<["formatters" := formatters]>
           (own_props h (VRef resolvedConfig))))))))))))) None].

(** The resolved configuration that the formatting functions of a
    context are bound to: the first bound argument of [formatMessage]. *)
Definition context_config (h : list cell) (intl : value) : value :=
  match get_prop h intl "formatMessage" with
  | VRef b =>
      match h !! b with
      | Some (Cell _ (Some (BoundTo _ (resolvedConfig :: _)))) =>
          resolvedConfig
      | _ => VUndefined
      end
  | _ => VUndefined
  end.

(** What holds of a provider all along: its cache is [c], and its
    context is built over [c]. *)
Definition cache_kept (c : value) (h : list cell) (st : State) : Prop :=
  cache st = c ∧ built_over h (intl st) c.

(** [m], started in any store that begins with [base], ends in a store
    that still begins with [base], has only added calls, and returns a
    value satisfying [P]. *)
Definition keeps {A} (base : list cell) (P : A → Prop) (m : M A) : Prop :=
  ∀ t cl, ∃ t' cl',
    heap (m (World (base ++ t) cl)).2 = base ++ t' ∧
    calls (m (World (base ++ t) cl)).2 = cl ++ cl' ∧
    P (m (World (base ++ t) cl)).1.

(** A computation that calls nothing. *)
Definition silent {A} (m : M A) : Prop := ∀ w, calls (m w).2 = calls w.

(** The test of lines 75-105 on one of [formats] and [defaultFormats]:
    the group is replaced by a new object when [timeZone] is truthy, the
    group is truthy and its [date] or its [time] is truthy. *)
Definition injects (h : list cell) (config : value) (group : string) : bool :=
  truthy (get_prop h config "timeZone")
  && truthy (get_prop h config group)
  && (truthy (get_prop h (get_prop h config group) "date")
      || truthy (get_prop h (get_prop h config group) "time")).

(** The function and the arguments that a function made by
    [target.bind(null, ...args)] is bound to. *)
Definition bound_to (h : list cell) (v : value)
  : option (string * list value) :=
  match v with
  | VRef l =>
      match h !! l with
      | Some (Cell _ (Some (BoundTo target args))) => Some (target, args)
      | _ => None
      end
  | _ => None
  end.

(** Lines 187-226: the keys of the context that hold a function bound to
    one accessor of the formatters, each with its accessor. *)
Definition bindings : list (string * string) :=
  [("formatNumber", "getNumberFormat");
   ("formatNumberToParts", "getNumberFormat");
   ("formatRelativeTime", "getRelativeTimeFormat");
   ("formatDate", "getDateTimeFormat");
   ("formatDateToParts", "getDateTimeFormat");
   ("formatTime", "getDateTimeFormat");
   ("formatTimeToParts", "getDateTimeFormat");
   ("formatPlural", "getPluralRules")].

(** The eight fields of [a] and of [b] are pairwise [===]. *)
Definition same_fields (h : list cell) (a b : value) : bool :=
  forallb (λ k, strict_eq (get_prop h a k) (get_prop h b k)) canonical_fields.

(** A state as the provider means to keep it: the context is an object
    of the store, and the previous configuration is a plain object with
    the eight fields. *)
Definition well_formed (h : list cell) (st : State) : Prop :=
  (∃ ps, plain h (intl st) ps) ∧
  ∃ lit, plain h (prevConfig st) lit ∧
         dom lit = list_to_set (C := gset string) canonical_fields.

(** ** An example store *)

Definition object (ps : list (string * value)) : cell :=
  Cell (list_to_map ps) None.

Definition function : cell := Cell ∅ (Some Opaque).

(** Modelled from the spec: the system defaults ([defaultLocale] is "en";
    empty format presets and messages; an error handler), the presets and
    the properties of two renders of
    [<IntlProvider locale="en" timeZone="UTC" formats={...}>], two
    configurations handed to [createIntl] directly, and the properties of
    two renders of [<IntlProvider locale="en" formats={...}>]. *)
Definition ex_heap : list cell :=
  [ (* 0 *) object [("month", VStr "short")];
    (* 1 *) object [("timeZone", VStr "America/New_York");
                    ("month", VStr "long")];
    (* 2 *) object [("short", VRef 0); ("long", VRef 1)];
    (* 3 *) object [("date", VRef 2)];
    (* 4 *) object [];
    (* 5 *) object [];
    (* 6 *) object [];
    (* 7 *) function;
    (* 8 *) function;
    (* 9: DEFAULT_INTL_CONFIG *)
            object [("formats", VRef 4); ("messages", VRef 5);
                    ("timeZone", VUndefined); ("textComponent", VRef 7);
                    ("defaultLocale", VStr "en"); ("defaultFormats", VRef 6);
                    ("onError", VRef 8)];
    (* 10: props of a render *)
            object [("locale", VStr "en"); ("timeZone", VStr "UTC");
                    ("formats", VRef 3); ("messages", VRef 5);
                    ("textComponent", VRef 7); ("defaultLocale", VStr "en");
                    ("defaultFormats", VRef 6); ("onError", VRef 8);
                    ("children", VStr "first")];
    (* 11: props of the next render *)
            object [("locale", VStr "en"); ("timeZone", VStr "UTC");
                    ("formats", VRef 3); ("messages", VRef 5);
                    ("textComponent", VRef 7); ("defaultLocale", VStr "en");
                    ("defaultFormats", VRef 6); ("onError", VRef 8);
                    ("children", VStr "second")];
    (* 12: {locale: "xx-ZZ", defaultLocale: "de", messages, onError} *)
            object [("locale", VStr "xx-ZZ"); ("defaultLocale", VStr "de");
                    ("messages", VRef 5); ("onError", VRef 8)];
    (* 13: {locale: "xx-ZZ", defaultLocale: undefined, onError: undefined} *)
            object [("locale", VStr "xx-ZZ"); ("defaultLocale", VUndefined);
                    ("onError", VUndefined)];
    (* 14: props of a render without timeZone *)
            object [("locale", VStr "en"); ("timeZone", VUndefined);
                    ("formats", VRef 3); ("messages", VRef 5);
                    ("textComponent", VRef 7); ("defaultLocale", VStr "en");
                    ("defaultFormats", VRef 6); ("onError", VRef 8);
                    ("children", VStr "first")];
    (* 15: props of the next render without timeZone *)
            object [("locale", VStr "en"); ("timeZone", VUndefined);
                    ("formats", VRef 3); ("messages", VRef 5);
                    ("textComponent", VRef 7); ("defaultLocale", VStr "en");
                    ("defaultFormats", VRef 6); ("onError", VRef 8);
                    ("children", VStr "second")] ].

Definition ex_world : world := World ex_heap [].

Definition ex_DEFAULT_INTL_CONFIG : value := VRef 9.

Definition ex_supported (locale : value) : bool :=
  bool_decide (locale ∈ [VStr "en"; VStr "de"; VStr "fr"]).

Definition ex_createError (message : string) : value :=
  VStr ("[React Intl] " +:+ message).

Definition ex_ToString (v : value) : string := "[object Object]".

(** * Properties *)

(** ** The store *)

Lemma validb_app h t v : validb h v = true → validb (h ++ t) v = true.
Proof.
  destruct v; simpl; try done.
  rewrite !bool_decide_eq_true, length_app. lia.
Qed.

Lemma own_props_app h t v :
  validb h v = true → own_props (h ++ t) v = own_props h v.
Proof.
  destruct v; simpl; try done.
  rewrite bool_decide_eq_true. intros Hl. by rewrite lookup_app_l.
Qed.

Lemma get_prop_app h t v k :
  validb h v = true → get_prop (h ++ t) v k = get_prop h v k.
Proof. intros Hv. unfold get_prop. by rewrite own_props_app. Qed.

Lemma closedb_lookup h l c k v :
  closedb h = true → h !! l = Some c → own c !! k = Some v →
  validb h v = true.
Proof.
  unfold closedb. rewrite forallb_forall. intros Hall Hl Hk.
  assert (In c h) as Hc by (apply list_elem_of_In; by eapply list_elem_of_lookup_2).
  specialize (Hall c Hc). rewrite forallb_forall in Hall.
  apply (Hall (k, v)). apply list_elem_of_In. by apply elem_of_map_to_list.
Qed.

(** Whatever is read from a valid value of a closed store is valid. *)
Lemma own_props_valid h v k x :
  closedb h = true → own_props h v !! k = Some x → validb h x = true.
Proof.
  intros Hc. destruct v; simpl; try (by rewrite lookup_empty).
  - intros Hx. apply elem_of_list_to_map_2 in Hx.
    apply elem_of_lookup_imap in Hx as (i & a & Heq & _).
    by inversion Heq.
  - destruct (h !! l) as [c|] eqn:Hl; [|by rewrite lookup_empty].
    intros Hx. by eapply closedb_lookup.
Qed.

Lemma get_prop_valid h v k :
  closedb h = true → validb h (get_prop h v k) = true.
Proof.
  intros Hc. unfold get_prop.
  destruct (own_props h v !! k) as [x|] eqn:Hx; simpl; [|done].
  by eapply own_props_valid.
Qed.

Lemma plain_app h t v ps : plain h v ps → plain (h ++ t) v ps.
Proof.
  intros (l & -> & Hl). exists l. split; [done|].
  rewrite lookup_app_l; [done|]. by eapply lookup_lt_Some.
Qed.

Lemma plain_own_props h v ps : plain h v ps → own_props h v = ps.
Proof. intros (l & -> & Hl). simpl. by rewrite Hl. Qed.

Lemma plain_valid h v ps : plain h v ps → validb h v = true.
Proof.
  intros (l & -> & Hl). simpl. rewrite bool_decide_eq_true.
  by eapply lookup_lt_Some.
Qed.

Lemma plain_truthy h v ps : plain h v ps → truthy v = true.
Proof. by intros (l & -> & Hl). Qed.

(** ** Computations only ever add cells behind the store they start in *)

Lemma keeps_ret {A} base (P : A → Prop) a : P a → keeps base P (ret a).
Proof. intros HP t cl. exists t, []. by rewrite app_nil_r. Qed.

Lemma keeps_bind {A B} base (P : A → Prop) (Q : B → Prop) m f :
  keeps base P m → (∀ a, P a → keeps base Q (f a)) →
  keeps base Q (bind m f).
Proof.
  intros Hm Hf t cl. unfold bind.
  destruct (Hm t cl) as (t1 & cl1 & Hh & Hc & HP).
  destruct (m (World (base ++ t) cl)) as [a [h1 c1]]. simpl in *. subst.
  destruct (Hf a HP t1 (cl ++ cl1)) as (t2 & cl2 & Hh & Hc & HQ).
  exists t2, (cl1 ++ cl2). by rewrite Hh, Hc, app_assoc.
Qed.

Lemma keeps_weaken {A} base (P Q : A → Prop) m :
  keeps base P m → (∀ a, P a → Q a) → keeps base Q m.
Proof.
  intros Hm HPQ t cl. destruct (Hm t cl) as (t' & cl' & ? & ? & ?).
  exists t', cl'. auto.
Qed.

Lemma keeps_new_cell base c :
  keeps base (λ l, length base ≤ l) (new_cell c).
Proof.
  intros t cl. exists (t ++ [c]), []. simpl.
  rewrite app_assoc, app_nil_r, length_app. split_and!; [done..|lia].
Qed.

Lemma keeps_read base v k : keeps base (λ _, True) (read v k).
Proof. intros t cl. exists t, []. by rewrite app_nil_r. Qed.

Lemma keeps_spread base v : keeps base (λ _, True) (spread v).
Proof. intros t cl. exists t, []. by rewrite app_nil_r. Qed.

Lemma keeps_keys base v : keeps base (λ _, True) (keys v).
Proof. intros t cl. exists t, []. by rewrite app_nil_r. Qed.

Lemma keeps_typeof_function base v :
  keeps base (λ _, True) (typeof_function v).
Proof. intros t cl. exists t, []. by rewrite app_nil_r. Qed.

Lemma keeps_shallowEquals base a b :
  keeps base (λ _, True) (shallowEquals a b).
Proof. intros t cl. exists t, []. by rewrite app_nil_r. Qed.

Lemma keeps_invoke base f args : keeps base (λ _, True) (invoke f args).
Proof. intros t cl. by exists t, [Call f args]. Qed.

Lemma keeps_assign base o k v :
  length base ≤ o → keeps base (λ _, True) (assign o k v).
Proof.
  intros Ho t cl. eexists _, []. simpl.
  rewrite alter_app_r_alt by done.
  split_and!; [reflexivity|by rewrite app_nil_r|done].
Qed.

Lemma keeps_reduce {A B} base (P : A → Prop) (f : A → B → M A) l :
  (∀ a x, P a → keeps base P (f a x)) →
  ∀ a, P a → keeps base P (reduce f l a).
Proof.
  intros Hf. induction l as [|x l IH]; intros a Ha; simpl.
  - by apply keeps_ret.
  - eapply keeps_bind; [by apply Hf|]. intros a' Ha'. by apply IH.
Qed.

Lemma keeps_bind_any {A B} base (Q : B → Prop) (m : M A) f :
  keeps base (λ _, True) m → (∀ a, keeps base Q (f a)) →
  keeps base Q (bind m f).
Proof. intros Hm Hf. eapply keeps_bind; [exact Hm|]. intros a _. apply Hf. Qed.

Lemma keeps_any {A} base (P : A → Prop) m :
  keeps base P m → keeps base (λ _, True) m.
Proof. intros Hm. by eapply keeps_weaken. Qed.

(** Breaks a computation down along its binds and conditionals. *)
Ltac keeps_step :=
  match goal with
  | |- keeps _ _ (bind _ _) => apply keeps_bind_any; [|intros ?]
  | |- keeps _ _ (if ?b then _ else _) => destruct b
  | |- keeps _ (λ _, True) (ret _) => by apply keeps_ret
  | |- keeps _ (λ _, True) (new_object _) =>
      apply (keeps_any _ _ _ (keeps_new_cell _ _))
  | |- keeps _ (λ _, True) (new_cell _) =>
      apply (keeps_any _ _ _ (keeps_new_cell _ _))
  | |- keeps _ _ (new_object _) => apply keeps_new_cell
  | |- keeps _ _ (new_cell _) => apply keeps_new_cell
  | |- keeps _ _ (read _ _) => apply keeps_read
  | |- keeps _ _ (spread _) => apply keeps_spread
  | |- keeps _ _ (keys _) => apply keeps_keys
  | |- keeps _ _ (typeof_function _) => apply keeps_typeof_function
  | |- keeps _ _ (invoke _ _) => apply keeps_invoke
  | |- keeps _ _ (shallowEquals _ _) => apply keeps_shallowEquals
  end.

Lemma keeps_setTimeZoneInOptions base opts tz :
  keeps base (λ _, True) (setTimeZoneInOptions opts tz).
Proof.
  unfold setTimeZoneInOptions.
  eapply keeps_bind; [apply keeps_keys|]. intros ks _.
  eapply keeps_bind; [apply keeps_new_cell|]. intros init Hinit.
  eapply keeps_bind; [|intros; by apply keeps_ret].
  apply (keeps_reduce base (λ l, length base ≤ l)); [|done].
  intros all k Hall. unfold setTimeZone_callback.
  apply keeps_bind_any; [apply keeps_read|intros preset].
  apply keeps_bind_any; [apply keeps_spread|intros ps].
  apply keeps_bind_any;
    [apply (keeps_any _ _ _ (keeps_new_cell _ _))|intros o].
  apply keeps_bind_any; [by apply keeps_assign|intros _].
  by apply keeps_ret.
Qed.

Lemma keeps_processIntlConfig base config :
  keeps base (λ c, length base ≤ c) (processIntlConfig config).
Proof.
  unfold processIntlConfig.
  repeat first [ apply keeps_setTimeZoneInOptions | keeps_step ].
Qed.

Lemma silent_bind {A B} (m : M A) (f : A → M B) :
  silent m → (∀ a, silent (f a)) → silent (bind m f).
Proof.
  intros Hm Hf w. unfold bind. specialize (Hm w).
  destruct (m w) as [a w1]. simpl in *. by rewrite Hf.
Qed.

Lemma silent_reduce {A B} (f : A → B → M A) l :
  (∀ a x, silent (f a x)) → ∀ a, silent (reduce f l a).
Proof.
  intros Hf. induction l as [|x l IH]; intros a; simpl; [done|].
  apply silent_bind; auto.
Qed.

Ltac silent_step :=
  match goal with
  | |- silent (bind _ _) => apply silent_bind; [|intros ?]
  | |- silent (if ?b then _ else _) => destruct b
  | |- silent (reduce _ _ _) => apply silent_reduce; intros ? ?
  | |- silent _ => by intros ?
  end.

Lemma silent_setTimeZoneInOptions opts tz :
  silent (setTimeZoneInOptions opts tz).
Proof.
  unfold setTimeZoneInOptions, setTimeZone_callback. repeat silent_step.
Qed.

Lemma silent_inject_both f df tz : silent (inject_both f df tz).
Proof.
  unfold inject_both, inject_formats, inject_slot.
  repeat first [ apply silent_setTimeZoneInOptions | silent_step ].
Qed.

Lemma keeps_inject_both base f df tz :
  keeps base (λ _, True) (inject_both f df tz).
Proof.
  unfold inject_both, inject_formats, inject_slot.
  repeat first [ apply keeps_setTimeZoneInOptions | keeps_step ].
Qed.

Lemma keeps_run {A} (P : A → Prop) m w :
  keeps (heap w) P m → ∃ t, heap (m w).2 = heap w ++ t ∧ P (m w).1.
Proof.
  intros Hm. destruct (Hm [] (calls w)) as (t & cl & Hh & _ & HP).
  rewrite app_nil_r in *. destruct w. eauto.
Qed.

(** ** Normalisation, step by step *)

Lemma processIntlConfig_unfold config :
  processIntlConfig config =
  (formats <- read (VRef config) "formats" ;;
   defaultFormats <- read (VRef config) "defaultFormats" ;;
   timeZone <- read (VRef config) "timeZone" ;;
   fs <- inject_both formats defaultFormats timeZone ;;
   locale <- read (VRef config) "locale" ;;
   textComponent <- read (VRef config) "textComponent" ;;
   messages <- read (VRef config) "messages" ;;
   defaultLocale <- read (VRef config) "defaultLocale" ;;
   onError <- read (VRef config) "onError" ;;
   new_object
     (canonical_literal locale timeZone fs.1 textComponent messages
        defaultLocale fs.2 onError)).
Proof. reflexivity. Qed.

(** The result of [processIntlConfig] is a fresh plain object made of the
    literal of lines 107-116. *)
Lemma processIntlConfig_shape config w :
  config < length (heap w) →
  let raw := get_prop (heap w) (VRef config) in
  ∃ f df t,
    inject_both (raw "formats") (raw "defaultFormats") (raw "timeZone") w
      = ((f, df), World (heap w ++ t) (calls w)) ∧
    processIntlConfig config w =
      (length (heap w ++ t),
       World ((heap w ++ t) ++
                [Cell (canonical_literal (raw "locale") (raw "timeZone") f
                         (raw "textComponent") (raw "messages")
                         (raw "defaultLocale") df (raw "onError")) None])
             (calls w)).
Proof.
  intros Hc raw. rewrite processIntlConfig_unfold.
  unfold bind at 1 2 3 4. unfold read at 1 2 3. simpl. fold raw.
  destruct (keeps_run _ _ w
              (keeps_inject_both (heap w) (raw "formats")
                 (raw "defaultFormats") (raw "timeZone"))) as (t & Ht & _).
  pose proof (silent_inject_both (raw "formats") (raw "defaultFormats")
                (raw "timeZone") w) as Hs.
  destruct (inject_both _ _ _ w) as [[f df] [h1 c1]]. simpl in *. subst.
  exists f, df, t. split; [done|].
  unfold bind, read, new_object, new_cell. simpl.
  assert (validb (heap w) (VRef config) = true) as Hv
    by (simpl; by apply bool_decide_eq_true).
  by rewrite !get_prop_app.
Qed.

Lemma get_prop_props_valid h opts k :
  props_valid h opts → validb h (get_prop h opts k) = true.
Proof.
  intros Hp. unfold get_prop.
  destruct (own_props h opts !! k) as [x|] eqn:Hx; simpl; [|done].
  by eapply Hp.
Qed.

Lemma closedb_props_valid h v : closedb h = true → props_valid h v.
Proof. intros Hc k x Hx. by eapply own_props_valid. Qed.

Lemma injected_app base h t tz opts r :
  injected base h tz opts r → injected base (h ++ t) tz opts r.
Proof.
  intros (m & Hm & Hk). exists m. split; [by apply plain_app|].
  intros k. specialize (Hk k). destruct (own_props base opts !! k); [|done].
  destruct Hk as (o & ? & ?). exists o. split; [done|]. by apply plain_app.
Qed.

Lemma slot_injected_app base h t tz before after :
  slot_injected base h tz before after →
  slot_injected base (h ++ t) tz before after.
Proof.
  unfold slot_injected. destruct (truthy _); [|done].
  intros (d & ? & ?). exists d. split; [done|]. by apply injected_app.
Qed.

Lemma formats_injected_app base h t tz f f' :
  formats_injected base h tz f f' → formats_injected base (h ++ t) tz f f'.
Proof.
  unfold formats_injected. destruct (_ && _); [|done].
  intros (m & ? & ? & ? & ? & ?). exists m.
  split_and!; [by apply plain_app|done|by apply slot_injected_app..|done].
Qed.

(** One turn of the [reduce]: a fresh object for the preset, and the
    accumulator updated in place. *)
Lemma callback_run base t0 opts tz acc cs cl k :
  validb base opts = true → props_valid base opts →
  setTimeZone_callback opts tz (length (base ++ t0)) k
    (World ((base ++ t0) ++ Cell acc None :: cs) cl)
  = (length (base ++ t0),
     World ((base ++ t0) ++
            Cell (<[k := VRef (length (base ++ t0) + S (length cs))]> acc) None
            :: cs ++ [Cell (own_props base (get_prop base opts k)
                              ∪ {["timeZone" := tz]}) None])
           cl).
Proof.
  intros Hv Hp.
  unfold setTimeZone_callback, bind, read, spread, new_object, new_cell,
    assign, ret. simpl.
  assert (get_prop ((base ++ t0) ++ Cell acc None :: cs) opts k
          = get_prop base opts k) as ->
    by (rewrite <- app_assoc; by apply get_prop_app).
  assert (own_props ((base ++ t0) ++ Cell acc None :: cs)
            (get_prop base opts k) = own_props base (get_prop base opts k))
    as ->
    by (rewrite <- app_assoc; apply own_props_app;
        by apply get_prop_props_valid).
  rewrite <- (app_assoc (base ++ t0)). simpl.
  rewrite alter_app_r_alt by done. rewrite Nat.sub_diag. simpl.
  by rewrite !length_app.
Qed.

Lemma reduce_callback_run base t0 opts tz cl :
  validb base opts = true → props_valid base opts →
  ∀ ks acc cs, ∃ acc' cs',
    reduce (setTimeZone_callback opts tz) ks (length (base ++ t0))
      (World ((base ++ t0) ++ Cell acc None :: cs) cl)
    = (length (base ++ t0),
       World ((base ++ t0) ++ Cell acc' None :: cs ++ cs') cl) ∧
    (∀ k, k ∉ ks → acc' !! k = acc !! k) ∧
    (∀ k, k ∈ ks → ∃ o, acc' !! k = Some (VRef o) ∧
       ((base ++ t0) ++ Cell acc' None :: cs ++ cs') !! o
       = Some (Cell (own_props base (get_prop base opts k)
                       ∪ {["timeZone" := tz]}) None)).
Proof.
  intros Hv Hp. induction ks as [|k ks IH]; intros acc cs.
  - exists acc, []. rewrite app_nil_r. split_and!; [done..|].
    intros k Hk. by apply elem_of_nil in Hk.
  - simpl. unfold bind at 1. rewrite callback_run by done.
    set (n := length (base ++ t0) + S (length cs)).
    set (c := Cell (own_props base (get_prop base opts k)
                      ∪ {["timeZone" := tz]}) None).
    destruct (IH (<[k := VRef n]> acc) (cs ++ [c]))
      as (acc' & cs' & Heq & Hout & Hin).
    exists acc', (c :: cs'). rewrite Heq.
    replace ((cs ++ [c]) ++ cs') with (cs ++ c :: cs') in *
      by (by rewrite <- app_assoc).
    split_and!; [done| |].
    + intros k' Hk'. apply not_elem_of_cons in Hk' as [Hne Hk'].
      rewrite Hout by done. by rewrite lookup_insert_ne.
    + intros k' Hk'. destruct (decide (k' ∈ ks)) as [Hks|Hks]; [by apply Hin|].
      apply elem_of_cons in Hk' as [->|Hk']; [|done].
      exists n. rewrite Hout by done. rewrite lookup_insert_eq.
      split; [done|]. unfold n.
      rewrite lookup_app_r by lia.
      replace (length (base ++ t0) + S (length cs) - length (base ++ t0))
        with (S (length cs)) by lia.
      simpl. by rewrite list_lookup_middle.
Qed.

(** [setTimeZoneInOptions] returns the preset map of [injected]. *)
Lemma setTimeZoneInOptions_run base t0 opts tz cl :
  slot_ok base opts →
  ∃ r cs,
    setTimeZoneInOptions opts tz (World (base ++ t0) cl)
    = (r, World (base ++ t0 ++ cs) cl) ∧
    injected base (base ++ t0 ++ cs) tz opts r.
Proof.
  intros [Hv Hp]. unfold setTimeZoneInOptions.
  unfold bind at 1 2. unfold keys, new_object, new_cell. simpl.
  rewrite own_props_app by done.
  set (ks := (map_to_list (own_props base opts)).*1).
  destruct (reduce_callback_run base t0 opts tz cl Hv Hp ks ∅ [])
    as (acc' & cs' & Heq & Hout & Hin).
  unfold bind. rewrite Heq. simpl in *.
  exists (VRef (length (base ++ t0))), (Cell acc' None :: cs').
  rewrite app_assoc. split; [done|].
  exists acc'. split.
  - exists (length (base ++ t0)). split; [done|]. by rewrite list_lookup_middle.
  - intros k. destruct (own_props base opts !! k) as [p|] eqn:Hk.
    + assert (k ∈ ks) as Hks.
      { apply list_elem_of_fmap. exists (k, p). split; [done|].
        by apply elem_of_map_to_list. }
      destruct (Hin k Hks) as (o & Ho & Hcell).
      exists (VRef o). split; [done|]. exists o. split; [done|].
      rewrite Hcell. unfold get_prop. by rewrite Hk.
    + rewrite Hout; [by rewrite lookup_empty|].
      intros Hks. apply list_elem_of_fmap in Hks as ([k' p] & -> & Hkp).
      apply elem_of_map_to_list in Hkp. simpl in Hk. congruence.
Qed.

Lemma inject_slot_run base t0 slot f sv tz cl :
  slot_ok base sv →
  ∃ r cs,
    inject_slot slot f sv tz (World (base ++ t0) cl)
    = (r, World (base ++ t0 ++ cs) cl) ∧
    if truthy sv then
      ∃ d, plain (base ++ t0 ++ cs) r (<[slot := d]> (own_props (base ++ t0) f))
           ∧ injected base (base ++ t0 ++ cs) tz sv d
           ∧ fresh base r
    else r = f ∧ cs = [].
Proof.
  intros Hok. unfold inject_slot. destruct (truthy sv).
  - unfold bind at 1. unfold spread at 1. simpl.
    destruct (setTimeZoneInOptions_run base t0 sv tz cl Hok)
      as (d & cs & Heq & Hinj).
    unfold bind at 1. rewrite Heq.
    unfold bind, new_object, new_cell, ret. simpl.
    exists (VRef (length (base ++ t0 ++ cs))),
      (cs ++ [Cell (<[slot:=d]> (own_props (base ++ t0) f)) None]).
    replace (base ++ t0 ++ cs ++ [Cell (<[slot:=d]> (own_props (base ++ t0) f)) None])
      with ((base ++ t0 ++ cs) ++ [Cell (<[slot:=d]> (own_props (base ++ t0) f)) None])
      by (by rewrite <- !app_assoc).
    split; [done|]. exists d. split_and!.
    + eexists. split; [done|]. by rewrite list_lookup_middle.
    + by apply injected_app.
    + eexists. split; [done|]. rewrite length_app. lia.
  - exists f, []. by rewrite !app_nil_r.
Qed.

Lemma inject_formats_run base t0 f tz cl :
  formats_ok base f →
  ∃ f' cs,
    inject_formats f tz (World (base ++ t0) cl)
    = (f', World (base ++ t0 ++ cs) cl) ∧
    formats_injected base (base ++ t0 ++ cs) tz f f'.
Proof.
  intros (Hv & Hd & Ht). unfold inject_formats, formats_injected.
  destruct (truthy f) eqn:Hf; simpl;
    [|exists f, []; by rewrite !app_nil_r].
  unfold bind at 1 2. unfold read. simpl. rewrite !get_prop_app by done.
  destruct (inject_slot_run base t0 "date" f (get_prop base f "date") tz cl Hd)
    as (r1 & cs1 & Heq1 & H1).
  unfold bind. rewrite Heq1.
  destruct (inject_slot_run base (t0 ++ cs1) "time" r1
              (get_prop base f "time") tz cl Ht) as (r2 & cs2 & Heq2 & H2).
  rewrite Heq2. exists r2, (cs1 ++ cs2).
  rewrite <- !app_assoc in *. split; [done|].
  rewrite own_props_app in H1 by done.
  unfold slot_injected. fold (get_prop base f "date") (get_prop base f "time").
  destruct (truthy (get_prop base f "date")) eqn:HD,
           (truthy (get_prop base f "time")) eqn:HT; simpl.
  - destruct H1 as (d & Hr1 & Hd1 & Hf1), H2 as (t & Hr2 & Ht2 & Hf2).
    rewrite (plain_own_props _ _ _ Hr1) in Hr2.
    eexists. split; [exact Hr2|]. split_and!; [..|done].
    + intros k ? ?. by rewrite !lookup_insert_ne.
    + exists d. rewrite lookup_insert_ne, lookup_insert_eq by done.
      split; [done|].
      replace (base ++ t0 ++ cs1 ++ cs2) with ((base ++ t0 ++ cs1) ++ cs2)
        by (by rewrite <- !app_assoc).
      by apply injected_app.
    + exists t. by rewrite lookup_insert_eq.
  - destruct H1 as (d & Hr1 & Hd1 & Hf1), H2 as [-> ->].
    rewrite app_nil_r in *.
    eexists. split; [exact Hr1|]. split_and!; [..|done].
    + intros k ? ?. by rewrite !lookup_insert_ne.
    + exists d. by rewrite lookup_insert_eq.
    + by rewrite lookup_insert_ne.
  - destruct H1 as [-> ->], H2 as (t & Hr2 & Ht2 & Hf2). simpl in *.
    rewrite app_nil_r in *. rewrite own_props_app in Hr2 by done.
    eexists. split; [exact Hr2|]. split_and!; [..|done].
    + intros k ? ?. by rewrite !lookup_insert_ne.
    + by rewrite lookup_insert_ne.
    + exists t. by rewrite lookup_insert_eq.
  - destruct H1 as [-> ->], H2 as [-> ->]. done.
Qed.

Lemma inject_both_run base t0 f df tz cl :
  formats_ok base f → formats_ok base df →
  ∃ r cs,
    inject_both f df tz (World (base ++ t0) cl)
    = (r, World (base ++ t0 ++ cs) cl) ∧
    both_injected base (base ++ t0 ++ cs) tz f df r.
Proof.
  intros Hf Hdf. unfold inject_both, both_injected.
  destruct (truthy tz); [|exists (f, df), []; by rewrite !app_nil_r].
  destruct (inject_formats_run base t0 f tz cl Hf) as (f' & cs1 & Heq1 & H1).
  unfold bind at 1. rewrite Heq1.
  destruct (inject_formats_run base (t0 ++ cs1) df tz cl Hdf)
    as (df' & cs2 & Heq2 & H2).
  unfold bind, ret. rewrite Heq2.
  exists (f', df'), (cs1 ++ cs2). rewrite <- !app_assoc in *.
  split; [done|]. simpl. split; [|done].
  replace (base ++ t0 ++ cs1 ++ cs2) with ((base ++ t0 ++ cs1) ++ cs2)
    by (by rewrite <- !app_assoc).
  by apply formats_injected_app.
Qed.

(** [processIntlConfig], run in a store where the configuration and its
    format presets are in place. *)
Lemma processIntlConfig_run config w :
  config < length (heap w) →
  let raw := get_prop (heap w) (VRef config) in
  formats_ok (heap w) (raw "formats") →
  formats_ok (heap w) (raw "defaultFormats") →
  ∃ f df t,
    processIntlConfig config w =
      (length (heap w ++ t),
       World ((heap w ++ t) ++
                [Cell (canonical_literal (raw "locale") (raw "timeZone") f
                         (raw "textComponent") (raw "messages")
                         (raw "defaultLocale") df (raw "onError")) None])
             (calls w)) ∧
    both_injected (heap w) (heap w ++ t) (raw "timeZone")
      (raw "formats") (raw "defaultFormats") (f, df).
Proof.
  intros Hc raw Hf Hdf.
  destruct (processIntlConfig_shape config w Hc) as (f & df & t & Hb & Hp).
  fold raw in Hb, Hp.
  destruct (inject_both_run (heap w) [] (raw "formats") (raw "defaultFormats")
              (raw "timeZone") (calls w) Hf Hdf) as (r & cs & Heq & Hr).
  rewrite app_nil_r in Heq. simpl in Heq, Hr.
  replace (World (heap w) (calls w)) with w in Heq by (by destruct w).
  rewrite Hb in Heq. injection Heq as <- Hh.
  exists f, df, t. split; [done|]. by rewrite Hh.
Qed.

Lemma closedb_formats_ok h v :
  closedb h = true → validb h v = true → formats_ok h v.
Proof.
  intros Hc Hv. split; [done|].
  split; (split; [by apply get_prop_valid|by apply closedb_props_valid]).
Qed.

Lemma canonical_literal_dom l tz f tc m dl df e :
  dom (canonical_literal l tz f tc m dl df e)
  = list_to_set (C := gset string) canonical_fields.
Proof.
  unfold canonical_literal, canonical_fields. rewrite !dom_insert_L, dom_empty_L.
  simpl. set_solver.
Qed.

Lemma canonical_literal_lookup l tz f tc m dl df e k :
  k ∈ canonical_fields →
  canonical_literal l tz f tc m dl df e !! k
  = Some (if decide (k = "locale") then l
          else if decide (k = "timeZone") then tz
          else if decide (k = "formats") then f
          else if decide (k = "textComponent") then tc
          else if decide (k = "messages") then m
          else if decide (k = "defaultLocale") then dl
          else if decide (k = "defaultFormats") then df
          else e).
Proof.
  unfold canonical_fields, canonical_literal. intros Hk.
  repeat (apply elem_of_cons in Hk as [->|Hk]; [by simplify_map_eq|]).
  by apply elem_of_nil in Hk.
Qed.

Lemma inject_both_falsy_fst f df tz w :
  truthy f = false → (inject_both f df tz w).1.1 = f.
Proof.
  intros Hf. unfold inject_both. destruct (truthy tz); [|done].
  unfold bind at 1. unfold inject_formats at 1. rewrite Hf. unfold ret at 1.
  unfold bind. by destruct (inject_formats df tz w).
Qed.

Lemma inject_both_falsy_snd f df tz w :
  truthy df = false → (inject_both f df tz w).1.2 = df.
Proof.
  intros Hf. unfold inject_both. destruct (truthy tz); [|done].
  unfold bind. destruct (inject_formats f tz w) as [f' w1].
  unfold inject_formats. by rewrite Hf.
Qed.

Lemma get_prop_absent h v k : has_own h v k = false → get_prop h v k = VUndefined.
Proof.
  unfold has_own, get_prop. rewrite bool_decide_eq_false.
  destruct (own_props h v !! k); [|done]. intros []. by eexists.
Qed.

(** ** The fields of a normalised configuration *)

(** C4, as amended.  Whatever the raw configuration, the normalised one
    is a plain object with exactly the eight fields [locale], [timeZone],
    [formats], [textComponent], [messages], [defaultLocale],
    [defaultFormats] and [onError] (eight, not nine), and each of them
    that the raw configuration does not have is [undefined]. *)
Theorem normalised_fields config w :
  config < length (heap w) →
  let '(c, w') := processIntlConfig config w in
  dom (own_props (heap w') (VRef c))
    = list_to_set (C := gset string) canonical_fields ∧
  size (own_props (heap w') (VRef c)) = 8 ∧
  is_function (heap w') (VRef c) = false ∧
  ∀ k, k ∈ canonical_fields →
       has_own (heap w) (VRef config) k = false →
       get_prop (heap w') (VRef c) k = VUndefined.
Proof.
  intros Hc.
  destruct (processIntlConfig_shape config w Hc) as (f & df & t & Hb & Hp).
  rewrite Hp. simpl. rewrite list_lookup_middle by done. simpl.
  split; [apply canonical_literal_dom|]. split.
  { rewrite <- size_dom, canonical_literal_dom. by vm_compute. }
  split; [done|]. intros k Hk Habs.
  unfold get_prop at 1. simpl. rewrite list_lookup_middle by done. simpl.
  rewrite canonical_literal_lookup by done. simpl.
  assert (get_prop (heap w) (VRef config) k = VUndefined) as Hu
    by (by apply get_prop_absent).
  repeat case_decide; subst; try done.
  - pose proof (inject_both_falsy_fst
      (get_prop (heap w) (VRef config) "formats")
      (get_prop (heap w) (VRef config) "defaultFormats")
      (get_prop (heap w) (VRef config) "timeZone") w) as Hf.
    rewrite Hb, Hu in Hf. by apply Hf.
  - pose proof (inject_both_falsy_snd
      (get_prop (heap w) (VRef config) "formats")
      (get_prop (heap w) (VRef config) "defaultFormats")
      (get_prop (heap w) (VRef config) "timeZone") w) as Hf.
    rewrite Hb, Hu in Hf. by apply Hf.
  - unfold canonical_fields in Hk.
    rewrite !elem_of_cons, elem_of_nil in Hk. destruct_or! Hk; by subst.
Qed.

Lemma normalised_fields_witness :
  10 < length (heap ex_world) ∧
  let '(c, w') := processIntlConfig 10 ex_world in
  dom (own_props (heap w') (VRef c))
    = list_to_set (C := gset string) canonical_fields ∧
  size (own_props (heap w') (VRef c)) = 8 ∧
  is_function (heap w') (VRef c) = false ∧
  ∀ k, k ∈ canonical_fields →
       has_own (heap ex_world) (VRef 10) k = false →
       get_prop (heap w') (VRef c) k = VUndefined.
Proof.
  split; [vm_compute; lia|].
  apply (normalised_fields 10 ex_world). vm_compute; lia.
Defined.

(** C4, as stated, fails: the normalised configuration of the example has
    eight fields, not nine. *)
Lemma normalised_fields_not_nine :
  ¬ (let '(c, w') := processIntlConfig 10 ex_world in
     size (own_props (heap w') (VRef c)) = 9).
Proof. vm_compute. discriminate. Qed.

(** ** Time zone injection *)

Lemma truthy_get_prop h v k : truthy (get_prop h v k) = true → truthy v = true.
Proof.
  unfold get_prop. destruct v as [| |[]| |z|s|l]; simpl;
    rewrite ?lookup_empty; try done.
  destruct s; simpl; [by rewrite lookup_empty|done].
Qed.

Lemma formats_injected_slot base h tz f f' slot :
  slot ∈ ["date"; "time"] →
  truthy (get_prop base f slot) = true →
  formats_injected base h tz f f' →
  injected base h tz (get_prop base f slot) (get_prop h f' slot).
Proof.
  intros Hs Ht. unfold formats_injected.
  rewrite (truthy_get_prop _ _ _ Ht). simpl.
  rewrite !elem_of_cons, elem_of_nil in Hs. destruct_or! Hs; try done; subst.
  - rewrite Ht. simpl. intros (m & Hm & _ & Hd & _).
    unfold slot_injected in Hd. fold (get_prop base f "date") in Hd.
    rewrite Ht in Hd. destruct Hd as (d & Hmd & Hd).
    unfold get_prop at 2. by rewrite (plain_own_props _ _ _ Hm), Hmd.
  - rewrite Ht, orb_true_r. intros (m & Hm & _ & _ & Hd & _).
    unfold slot_injected in Hd. fold (get_prop base f "time") in Hd.
    rewrite Ht in Hd. destruct Hd as (d & Hmd & Hd).
    unfold get_prop at 2. by rewrite (plain_own_props _ _ _ Hm), Hmd.
Qed.

Lemma injected_dom base h tz opts r :
  injected base h tz opts r →
  dom (own_props h r) = dom (own_props base opts).
Proof.
  intros (m & Hm & Hk). rewrite (plain_own_props _ _ _ Hm).
  apply set_eq. intros k. rewrite !elem_of_dom. specialize (Hk k).
  destruct (own_props base opts !! k) as [p|].
  - destruct Hk as (o & -> & _). split; by eauto.
  - rewrite Hk. split; by intros [].
Qed.

Lemma injected_preset base h tz opts r name :
  injected base h tz opts r →
  has_own base opts name = true →
  plain h (get_prop h r name)
    (own_props base (get_prop base opts name) ∪ {["timeZone" := tz]}).
Proof.
  intros (m & Hm & Hk) Hown. unfold has_own in Hown.
  apply bool_decide_eq_true in Hown as [p Hp].
  specialize (Hk name). rewrite Hp in Hk. destruct Hk as (o & Ho & Hpl).
  unfold get_prop. by rewrite (plain_own_props _ _ _ Hm), Ho, Hp.
Qed.

Lemma timeZone_under_preset h p tz :
  default VUndefined ((own_props h p ∪ {["timeZone" := tz]}) !! "timeZone")
  = if has_own h p "timeZone" then get_prop h p "timeZone" else tz.
Proof.
  unfold has_own, get_prop. rewrite lookup_union.
  destruct (own_props h p !! "timeZone") as [x|] eqn:Hx;
    rewrite lookup_singleton_eq; by simpl.
Qed.

Lemma normalised_field_read h lit k :
  get_prop (h ++ [Cell lit None]) (VRef (length h)) k
  = default VUndefined (lit !! k).
Proof. unfold get_prop. simpl. by rewrite list_lookup_middle. Qed.

(** C2.  When the raw configuration has a (truthy) [timeZone], each
    preset map that exists among [formats.date], [formats.time],
    [defaultFormats.date] and [defaultFormats.time] is replaced by a fresh
    map with the same preset names, each name leading to a fresh object
    that holds [timeZone] under the properties of the original preset: a
    [timeZone] of the preset's own wins, a preset without one receives the
    top-level one, and every other option is kept. *)
Theorem timeZone_injected_into_presets config w group slot :
  closedb (heap w) = true →
  config < length (heap w) →
  group ∈ ["formats"; "defaultFormats"] →
  slot ∈ ["date"; "time"] →
  let h := heap w in
  let tz := get_prop h (VRef config) "timeZone" in
  let presets := get_prop h (get_prop h (VRef config) group) slot in
  truthy tz = true →
  truthy presets = true →
  let '(c, w') := processIntlConfig config w in
  let h' := heap w' in
  let presets' := get_prop h' (get_prop h' (VRef c) group) slot in
  injected h h' tz presets presets' ∧
  dom (own_props h' presets') = dom (own_props h presets) ∧
  ∀ name, has_own h presets name = true →
    let preset := get_prop h presets name in
    let preset' := get_prop h' presets' name in
    plain h' preset' (own_props h preset ∪ {["timeZone" := tz]}) ∧
    get_prop h' preset' "timeZone"
      = (if has_own h preset "timeZone" then get_prop h preset "timeZone"
         else tz) ∧
    ∀ key, key ≠ "timeZone" → get_prop h' preset' key = get_prop h preset key.
Proof.
  intros Hcl Hc Hg Hs h tz presets Htz Hpre.
  assert (∀ k, formats_ok h (get_prop h (VRef config) k)) as Hok
    by (intros k; apply closedb_formats_ok; [done|by apply get_prop_valid]).
  destruct (processIntlConfig_run config w Hc (Hok _) (Hok _))
    as (f & df & t & Hp & Hb).
  rewrite Hp. simpl. fold h tz in Hb |- *.
  unfold both_injected in Hb. rewrite Htz in Hb. simpl in Hb.
  destruct Hb as [Hf Hdf].
  set (lit := canonical_literal _ _ _ _ _ _ _ _).
  set (h' := (h ++ t) ++ [Cell lit None]).
  assert (formats_injected h h' tz (get_prop h (VRef config) group)
            (get_prop h' (VRef (length (h ++ t))) group)) as Hgi.
  { unfold h'. rewrite normalised_field_read. unfold lit.
    rewrite !elem_of_cons, elem_of_nil in Hg. destruct_or! Hg; try done; subst;
      rewrite canonical_literal_lookup by (by repeat constructor);
      simpl; by apply formats_injected_app. }
  pose proof (formats_injected_slot _ _ _ _ _ _ Hs Hpre Hgi) as Hinj.
  split; [done|]. split; [by eapply injected_dom|].
  intros name Hname.
  pose proof (injected_preset _ _ _ _ _ _ Hinj Hname) as Hpl.
  split; [done|]. split.
  - unfold get_prop at 1. rewrite (plain_own_props _ _ _ Hpl).
    apply timeZone_under_preset.
  - intros key Hkey. unfold get_prop at 1.
    rewrite (plain_own_props _ _ _ Hpl).
    rewrite lookup_union, lookup_singleton_ne by done.
    unfold presets. unfold get_prop at 4.
    by destruct (own_props h _ !! key).
Qed.

Lemma timeZone_injected_witness :
  closedb (heap ex_world) = true ∧ 10 < length (heap ex_world) ∧
  let h := heap ex_world in
  let tz := get_prop h (VRef 10) "timeZone" in
  let presets := get_prop h (get_prop h (VRef 10) "formats") "date" in
  truthy tz = true ∧ truthy presets = true ∧
  let '(c, w') := processIntlConfig 10 ex_world in
  let h' := heap w' in
  let presets' := get_prop h' (get_prop h' (VRef c) "formats") "date" in
  injected h h' tz presets presets' ∧
  dom (own_props h' presets') = dom (own_props h presets) ∧
  ∀ name, has_own h presets name = true →
    let preset := get_prop h presets name in
    let preset' := get_prop h' presets' name in
    plain h' preset' (own_props h preset ∪ {["timeZone" := tz]}) ∧
    get_prop h' preset' "timeZone"
      = (if has_own h preset "timeZone" then get_prop h preset "timeZone"
         else tz) ∧
    ∀ key, key ≠ "timeZone" → get_prop h' preset' key = get_prop h preset key.
Proof.
  split; [by vm_compute|]. split; [vm_compute; lia|].
  split; [by vm_compute|]. split; [by vm_compute|].
  apply (timeZone_injected_into_presets 10 ex_world "formats" "date");
    try (by vm_compute); by repeat constructor.
Defined.

(** The two presets of the example: [short] has no [timeZone] of its own
    and receives "UTC"; [long] keeps its "America/New_York". *)
Example timeZone_injected_example :
  let r := processIntlConfig 10 ex_world in
  let date := get_prop (heap r.2) (get_prop (heap r.2) (VRef r.1) "formats")
                "date" in
  let short := get_prop (heap r.2) date "short" in
  let long := get_prop (heap r.2) date "long" in
  get_prop (heap r.2) short "timeZone" = VStr "UTC" ∧
  get_prop (heap r.2) short "month" = VStr "short" ∧
  get_prop (heap r.2) long "timeZone" = VStr "America/New_York" ∧
  get_prop (heap r.2) long "month" = VStr "long".
Proof. by vm_compute. Qed.

(** ** Idempotence of normalisation *)

Lemma plain_prefix h h' v ps : h `prefix_of` h' → plain h v ps → plain h' v ps.
Proof. intros [t ->]. apply plain_app. Qed.

Lemma plain_ref_lookup h l ps :
  plain h (VRef l) ps → h !! l = Some (Cell ps None).
Proof. by intros (l' & [= <-] & Hl). Qed.

Lemma plain_unfold depth h v1 v2 ps :
  plain h v1 ps → plain h v2 ps →
  unfold_value depth h v1 = unfold_value depth h v2.
Proof.
  intros (l1 & -> & H1) (l2 & -> & H2). destruct depth; simpl; [done|].
  by rewrite H1, H2.
Qed.

Lemma slot_ok_app h t v : slot_ok h v → slot_ok (h ++ t) v.
Proof.
  intros [Hv Hp]. split; [by apply validb_app|].
  intros k x. rewrite own_props_app by done. intros Hx.
  apply validb_app. by eapply Hp.
Qed.

Lemma formats_ok_app h t f : formats_ok h f → formats_ok (h ++ t) f.
Proof.
  intros (Hv & Hd & Ht). split; [by apply validb_app|].
  rewrite !get_prop_app by done. split; by apply slot_ok_app.
Qed.

Lemma injected_slot_ok base h tz opts r : injected base h tz opts r → slot_ok h r.
Proof.
  intros (m & Hm & Hk). split; [by eapply plain_valid|].
  intros k x. rewrite (plain_own_props _ _ _ Hm). intros Hx.
  specialize (Hk k). destruct (own_props base opts !! k); [|congruence].
  destruct Hk as (o & Ho & Hpl). rewrite Hx in Ho. injection Ho as ->.
  by eapply plain_valid.
Qed.

Lemma slot_injected_ok base t tz before after :
  slot_ok base (default VUndefined before) →
  slot_injected base (base ++ t) tz before after →
  slot_ok (base ++ t) (default VUndefined after).
Proof.
  intros Hok. unfold slot_injected. destruct (truthy _).
  - intros (d & -> & Hd). simpl. by eapply injected_slot_ok.
  - intros ->. by apply slot_ok_app.
Qed.

Lemma formats_injected_ok base t tz f f' :
  formats_ok base f → formats_injected base (base ++ t) tz f f' →
  formats_ok (base ++ t) f'.
Proof.
  intros Hok. unfold formats_injected. destruct (_ && _).
  - intros (m & Hm & _ & Hd & Ht & _). destruct Hok as (_ & Hokd & Hokt).
    split; [by eapply plain_valid|]. unfold get_prop.
    rewrite (plain_own_props _ _ _ Hm).
    split; [by apply (slot_injected_ok _ _ tz (own_props base f !! "date"))
           |by apply (slot_injected_ok _ _ tz (own_props base f !! "time"))].
  - intros ->. by apply formats_ok_app.
Qed.

Lemma union_timeZone_twice (ps : gmap string value) tz :
  (ps ∪ {["timeZone" := tz]}) ∪ {["timeZone" := tz]} = ps ∪ {["timeZone" := tz]}.
Proof. by rewrite <- (assoc_L (∪)), (idemp_L (∪)). Qed.

(** Injecting the time zone into an injected preset map yields an equal
    map. *)
Lemma injected_idempotent base h1 h2' h2 tz opts d1 d2 depth :
  h1 `prefix_of` h2 → h2' `prefix_of` h2 →
  injected base h1 tz opts d1 → injected h1 h2' tz d1 d2 →
  unfold_value depth h2 d2 = unfold_value depth h2 d1.
Proof.
  intros P1 P2 (m1 & Hm1 & K1) (m2 & Hm2 & K2).
  rewrite (plain_own_props _ _ _ Hm1) in K2.
  apply (plain_prefix _ _ _ _ P1) in Hm1 as (l1 & -> & Hl1).
  apply (plain_prefix _ _ _ _ P2) in Hm2 as (l2 & -> & Hl2).
  destruct depth as [|depth]; simpl; [done|]. rewrite Hl1, Hl2. f_equal.
  apply map_eq. intros k. rewrite !lookup_fmap.
  specialize (K1 k). specialize (K2 k).
  destruct (own_props base opts !! k) as [p|].
  - destruct K1 as (o1 & Ho1 & Hp1). rewrite Ho1 in K2 |- *.
    destruct K2 as (o2 & -> & Hp2). simpl. f_equal.
    rewrite (plain_own_props _ _ _ Hp1), union_timeZone_twice in Hp2.
    apply (plain_unfold _ _ _ _ (own_props base p ∪ {["timeZone" := tz]}));
      [by apply (plain_prefix h2')|by apply (plain_prefix h1)].
  - rewrite K1 in K2 |- *. by rewrite K2.
Qed.

Lemma slot_injected_truthy base h tz before after :
  slot_injected base h tz before after →
  truthy (default VUndefined after) = truthy (default VUndefined before).
Proof.
  unfold slot_injected. destruct (truthy (default VUndefined before)) eqn:Hb.
  - intros (d & -> & (m & Hm & _)). simpl. by eapply plain_truthy.
  - by intros ->.
Qed.

Lemma slot_injected_idempotent base h1 h2' h2 tz s0 s1 s2 depth :
  h1 `prefix_of` h2 → h2' `prefix_of` h2 →
  slot_injected base h1 tz s0 s1 → slot_injected h1 h2' tz s1 s2 →
  unfold_value depth h2 <$> s2 = unfold_value depth h2 <$> s1.
Proof.
  intros P1 P2 H1 H2. pose proof (slot_injected_truthy _ _ _ _ _ H1) as Ht.
  unfold slot_injected in *. rewrite Ht in H2.
  destruct (truthy (default VUndefined s0)).
  - destruct H1 as (d1 & -> & Hd1), H2 as (d2 & -> & Hd2). simpl in *.
    f_equal. exact (injected_idempotent _ _ _ _ _ _ _ _ _ P1 P2 Hd1 Hd2).
  - by subst.
Qed.

(** Running the block of lines 76-90 on its own result changes nothing
    that a deep comparison could see. *)
Lemma formats_injected_idempotent base t h2' h2 tz f f1 f2 depth :
  validb base f = true →
  base ++ t `prefix_of` h2 → h2' `prefix_of` h2 →
  formats_injected base (base ++ t) tz f f1 →
  formats_injected (base ++ t) h2' tz f1 f2 →
  unfold_value depth h2 f2 = unfold_value depth h2 f1.
Proof.
  intros Hv P1 P2 H1 H2. unfold formats_injected in H1.
  destruct (truthy f && _) eqn:Hcond.
  - destruct H1 as (m1 & Hm1 & Hk1 & Hd1 & Ht1 & _).
    unfold formats_injected in H2. unfold get_prop in H2, Hcond.
    rewrite (plain_own_props _ _ _ Hm1) in H2.
    rewrite (plain_truthy _ _ _ Hm1) in H2.
    rewrite (slot_injected_truthy _ _ _ _ _ Hd1),
      (slot_injected_truthy _ _ _ _ _ Ht1) in H2.
    apply andb_true_iff in Hcond as [_ Hcond]. rewrite Hcond in H2.
    simpl in H2. destruct H2 as (m2 & Hm2 & Hk2 & Hd2 & Ht2 & _).
    apply (plain_prefix _ _ _ _ P1) in Hm1 as (l1 & -> & Hl1).
    apply (plain_prefix _ _ _ _ P2) in Hm2 as (l2 & -> & Hl2).
    destruct depth as [|depth]; simpl; [done|]. rewrite Hl1, Hl2. f_equal.
    apply map_eq. intros k. rewrite !lookup_fmap.
    destruct (decide (k = "date")) as [->|Hnd];
      [exact (slot_injected_idempotent _ _ _ _ _ _ _ _ _ P1 P2 Hd1 Hd2)|].
    destruct (decide (k = "time")) as [->|Hnt];
      [exact (slot_injected_idempotent _ _ _ _ _ _ _ _ _ P1 P2 Ht1 Ht2)|].
    by rewrite Hk2.
  - subst f1. unfold formats_injected in H2.
    rewrite !get_prop_app, Hcond in H2 by done. by subst.
Qed.

Lemma canonical_literal_lookup_other l tz f tc m dl df e k :
  k ∉ canonical_fields → canonical_literal l tz f tc m dl df e !! k = None.
Proof.
  intros Hk. apply not_elem_of_dom. rewrite canonical_literal_dom.
  by rewrite elem_of_list_to_set.
Qed.

Lemma both_injected_ok base t tz f df r :
  formats_ok base f → formats_ok base df →
  both_injected base (base ++ t) tz f df r →
  formats_ok (base ++ t) r.1 ∧ formats_ok (base ++ t) r.2.
Proof.
  intros Hf Hdf. unfold both_injected. destruct (truthy tz).
  - intros [H1 H2].
    split; [exact (formats_injected_ok _ _ _ _ _ Hf H1)
           |exact (formats_injected_ok _ _ _ _ _ Hdf H2)].
  - intros ->. split; by apply formats_ok_app.
Qed.

Lemma both_injected_idempotent base t h2' h2 tz f df r1 r2 depth :
  validb base f = true → validb base df = true →
  base ++ t `prefix_of` h2 → h2' `prefix_of` h2 →
  both_injected base (base ++ t) tz f df r1 →
  both_injected (base ++ t) h2' tz r1.1 r1.2 r2 →
  unfold_value depth h2 r2.1 = unfold_value depth h2 r1.1 ∧
  unfold_value depth h2 r2.2 = unfold_value depth h2 r1.2.
Proof.
  intros Hf Hdf P1 P2. unfold both_injected. destruct (truthy tz).
  - intros [H1 H1'] [H2 H2'].
    split;
      [exact (formats_injected_idempotent _ _ _ _ _ _ _ _ _ Hf P1 P2 H1 H2)
      |exact (formats_injected_idempotent _ _ _ _ _ _ _ _ _ Hdf P1 P2 H1' H2')].
  - by intros -> ->.
Qed.

(** C3.  Normalising a normalised configuration yields a configuration
    with the same fields, each deeply equal to the field it comes from:
    the two unfold alike to every depth. *)
Theorem normalisation_idempotent config w :
  closedb (heap w) = true →
  config < length (heap w) →
  let '(c1, w1) := processIntlConfig config w in
  let '(c2, w2) := processIntlConfig c1 w1 in
  dom (own_props (heap w2) (VRef c2)) = dom (own_props (heap w2) (VRef c1)) ∧
  ∀ depth k,
    unfold_value depth (heap w2) (get_prop (heap w2) (VRef c2) k)
    = unfold_value depth (heap w2) (get_prop (heap w2) (VRef c1) k).
Proof.
  intros Hcl Hc.
  assert (∀ k, validb (heap w) (get_prop (heap w) (VRef config) k) = true)
    as Hval by (intros k; by apply get_prop_valid).
  assert (∀ k, formats_ok (heap w) (get_prop (heap w) (VRef config) k)) as Hok
    by (intros k; by apply closedb_formats_ok).
  destruct (processIntlConfig_run config w Hc (Hok _) (Hok _))
    as (f1 & df1 & t1 & Hp1 & Hb1).
  rewrite Hp1. clear Hp1.
  set (h := heap w) in *. set (raw := get_prop h (VRef config)) in *.
  set (lit1 := canonical_literal _ _ f1 _ _ _ df1 _).
  set (h1 := (h ++ t1) ++ [Cell lit1 None]).
  assert (length (h ++ t1) < length h1) as Hc1
    by (unfold h1; rewrite (length_app (h ++ t1)); simpl; lia).
  assert (∀ k, get_prop h1 (VRef (length (h ++ t1))) k
               = default VUndefined (lit1 !! k)) as Hraw1
    by (intros k; apply normalised_field_read).
  assert (h1 = h ++ t1 ++ [Cell lit1 None]) as Hh1
    by (unfold h1; by rewrite <- app_assoc).
  assert (both_injected h h1 (raw "timeZone") (raw "formats")
            (raw "defaultFormats") (f1, df1)) as Hb1'.
  { unfold both_injected in *. destruct (truthy (raw "timeZone")); [|done].
    destruct Hb1. split; by apply formats_injected_app. }
  destruct (both_injected_ok h (t1 ++ [Cell lit1 None]) _ _ _ _
              (Hok _) (Hok _) ltac:(by rewrite <- Hh1)) as [Hok1 Hok2].
  rewrite <- Hh1 in Hok1, Hok2. simpl in Hok1, Hok2.
  assert (∀ k, k ∈ canonical_fields →
               get_prop h1 (VRef (length (h ++ t1))) k
               = if decide (k = "formats") then f1
                 else if decide (k = "defaultFormats") then df1
                 else raw k) as Hfield.
  { intros k Hk. rewrite Hraw1. unfold lit1.
    rewrite canonical_literal_lookup by done. simpl.
    unfold canonical_fields in Hk. rewrite !elem_of_cons, elem_of_nil in Hk.
    destruct_or! Hk; by subst. }
  destruct (processIntlConfig_run (length (h ++ t1)) (World h1 (calls w)) Hc1)
    as (f2 & df2 & t2 & Hp2 & Hb2); cbn [heap calls] in *.
  { by rewrite Hfield by (by repeat constructor). }
  { by rewrite Hfield by (by repeat constructor). }
  rewrite Hp2. clear Hp2. cbn [heap calls].
  rewrite !Hfield in Hb2 by (by repeat constructor). simpl in Hb2.
  set (lit2 := canonical_literal _ _ f2 _ _ _ df2 _).
  set (h2 := (h1 ++ t2) ++ [Cell lit2 None]).
  assert (h1 `prefix_of` h2) as P1
    by (unfold h2; rewrite <- app_assoc; by apply prefix_app_r).
  assert (h1 ++ t2 `prefix_of` h2) as P2 by (unfold h2; by apply prefix_app_r).
  assert (plain h2 (VRef (length (h ++ t1))) lit1) as Hpl1.
  { apply (plain_prefix h1); [done|]. eexists. split; [done|].
    unfold h1. by rewrite list_lookup_middle. }
  assert (plain h2 (VRef (length (h1 ++ t2))) lit2) as Hpl2.
  { eexists. split; [done|]. unfold h2. by rewrite list_lookup_middle. }
  split.
  { rewrite (plain_own_props _ _ _ Hpl1), (plain_own_props _ _ _ Hpl2).
    unfold lit1, lit2. by rewrite !canonical_literal_dom. }
  intros depth k. unfold get_prop.
  rewrite (plain_own_props _ _ _ Hpl1), (plain_own_props _ _ _ Hpl2).
  rewrite Hh1 in Hb1', Hb2, P1, P2.
  destruct (both_injected_idempotent h (t1 ++ [Cell lit1 None]) _ h2 _ _ _ _ _
              depth (Hval _) (Hval _) P1 P2 Hb1' Hb2) as [Ef Edf].
  simpl in Ef, Edf.
  destruct (decide (k ∈ canonical_fields)) as [Hk|Hk].
  - unfold lit1, lit2. rewrite !canonical_literal_lookup by done. simpl.
    repeat case_decide; try done;
      by rewrite Hfield by (by repeat constructor).
  - unfold lit1, lit2. by rewrite !canonical_literal_lookup_other.
Qed.

Lemma normalisation_idempotent_witness :
  closedb (heap ex_world) = true ∧ 10 < length (heap ex_world) ∧
  let '(c1, w1) := processIntlConfig 10 ex_world in
  let '(c2, w2) := processIntlConfig c1 w1 in
  dom (own_props (heap w2) (VRef c2)) = dom (own_props (heap w2) (VRef c1)) ∧
  ∀ depth k,
    unfold_value depth (heap w2) (get_prop (heap w2) (VRef c2) k)
    = unfold_value depth (heap w2) (get_prop (heap w2) (VRef c1) k).
Proof.
  split; [by vm_compute|]. split; [vm_compute; lia|].
  apply (normalisation_idempotent 10 ex_world); [by vm_compute|vm_compute; lia].
Defined.

(** The normalised [formats] of the example and that of its
    renormalisation are deeply equal and are two objects. *)
Example normalisation_idempotent_example :
  let r1 := processIntlConfig 10 ex_world in
  let r2 := processIntlConfig r1.1 r1.2 in
  unfold_value 4 (heap r2.2) (get_prop (heap r2.2) (VRef r2.1) "formats")
    = unfold_value 4 (heap r2.2) (get_prop (heap r2.2) (VRef r1.1) "formats") ∧
  strict_eq (get_prop (heap r2.2) (VRef r2.1) "formats")
            (get_prop (heap r2.2) (VRef r1.1) "formats") = false.
Proof. by vm_compute. Qed.

(** ** Context construction, step by step *)

Lemma createFormatters_run cache w :
  let pre := if decide (cache = VUndefined) then [Cell ∅ None] else [] in
  let cache' :=
    if decide (cache = VUndefined) then VRef (length (heap w)) else cache in
  let n := length (heap w ++ pre) in
  createFormatters cache w =
    (VRef (n + 4),
     World ((heap w ++ pre) ++ formatter_cells n cache') (calls w)).
Proof.
  intros pre cache' n.
  unfold createFormatters, createIntlCache, formatter_cells.
  unfold bind, new_object, new_cell, ret. unfold pre, cache', n.
  destruct (decide (cache = VUndefined)); simpl;
    rewrite !length_app; simpl; rewrite <- !app_assoc; simpl;
    rewrite <- !Nat.add_assoc; simpl; rewrite ?Nat.add_0_r; reflexivity.
Qed.

Lemma get_prop_at h cells i k :
  get_prop (h ++ cells) (VRef (length h + i)) k
  = default VUndefined (c ← cells !! i; own c !! k).
Proof.
  unfold get_prop. simpl. rewrite lookup_app_r by lia.
  replace (length h + i - length h) with i by lia.
  by destruct (cells !! i).
Qed.

Lemma read_run_app h t cl v k :
  validb h v = true →
  read v k (World (h ++ t) cl) = (get_prop h v k, World (h ++ t) cl).
Proof. intros Hv. unfold read. cbn [heap]. by rewrite get_prop_app. Qed.

Lemma new_cell_run_app h t cl c :
  new_cell c (World (h ++ t) cl)
  = (length h + length t, World (h ++ (t ++ [c])) cl).
Proof. unfold new_cell. cbn [heap calls]. by rewrite length_app, app_assoc. Qed.

Lemma bind_imported_run_app h t cl target args :
  bind_imported target args (World (h ++ t) cl)
  = (VRef (length h + length t),
     World (h ++ (t ++ [Cell ∅ (Some (BoundTo target args))])) cl).
Proof. unfold bind_imported, bind. by rewrite new_cell_run_app. Qed.

Lemma context_of_run resolvedConfig formatters h cl :
  validb h formatters = true →
  context_of resolvedConfig formatters (World h cl)
  = (VRef (length h + 10),
     World (h ++ context_cells h resolvedConfig formatters) cl).
Proof.
  intros Hv. unfold context_of, context_cells.
  unfold bind at 1. unfold spread at 1. cbn [heap calls].
  replace (World h cl) with (World (h ++ []) cl) by (by rewrite app_nil_r).
  repeat (unfold bind at 1;
          first [rewrite read_run_app by done
                |rewrite bind_imported_run_app];
          cbn [app length]).
  unfold bind at 1. unfold new_object. rewrite new_cell_run_app.
  cbn [app length ret]. rewrite !Nat.add_0_r. reflexivity.
Qed.

Lemma createIntl_unfold config cache :
  createIntl config cache =
  (formatters <- createFormatters cache ;;
   defaults <- spread DEFAULT_INTL_CONFIG ;;
   given <- spread config ;;
   resolvedConfig <- new_object (given ∪ defaults) ;;
   locale_fallback resolvedConfig ;;
   context_of resolvedConfig formatters).
Proof. reflexivity. Qed.

(** Lines 163-183 on the freshly merged configuration. *)
Lemma locale_fallback_run g merged cl :
  let h := g ++ [Cell merged None] in
  let field k := default VUndefined (merged !! k) in
  let falls :=
    negb (truthy (field "locale"))
    || negb (areIntlLocalesSupported (field "locale")) in
  locale_fallback (length g) (World h cl) =
    (tt,
     World
       (g ++ [Cell (if falls
                    then <["locale" := if truthy (field "defaultLocale")
                                       then field "defaultLocale"
                                       else VStr "en"]> merged
                    else merged) None])
       (if falls && is_function h (field "onError")
        then cl ++ [Call (field "onError")
                      [createError
                         (missing_locale_message (field "locale")
                            (field "defaultLocale"))]]
        else cl)).
Proof.
  intros h field falls. unfold locale_fallback.
  unfold bind at 1. unfold read at 1. cbn [heap calls].
  unfold h. rewrite normalised_field_read. fold (field "locale"). fold falls.
  destruct falls; [|done].
  unfold bind, read, typeof_function. cbn [heap calls].
  rewrite !normalised_field_read.
  fold (field "locale") (field "defaultLocale") (field "onError").
  destruct (is_function _ (field "onError")); simpl;
    rewrite !normalised_field_read; fold (field "defaultLocale");
    unfold assign; cbn [heap calls];
    rewrite alter_app_r_alt, Nat.sub_diag by done; done.
Qed.

(** [createIntl] step by step: the cells of [createFormatters], the
    resolved configuration, the bound functions and the context. *)
Lemma createIntl_run config cache w :
  let pre := if decide (cache = VUndefined) then [Cell ∅ None] else [] in
  let cache' :=
    if decide (cache = VUndefined) then VRef (length (heap w)) else cache in
  let n := length (heap w ++ pre) in
  let g := (heap w ++ pre) ++ formatter_cells n cache' in
  let merged := own_props g config ∪ own_props g DEFAULT_INTL_CONFIG in
  let g' := g ++ [Cell (resolved_fields g config) None] in
  createIntl config cache w =
    (VRef (length g' + 10),
     World (g' ++ context_cells g' (length g) (VRef (n + 4)))
       (if falls_back g config
           && is_function (g ++ [Cell merged None])
                (resolved g config "onError")
        then calls w ++ [Call (resolved g config "onError")
                [createError
                   (missing_locale_message (resolved g config "locale")
                      (resolved g config "defaultLocale"))]]
        else calls w)).
Proof.
  intros pre cache' n g merged g'. rewrite createIntl_unfold.
  unfold bind at 1. rewrite createFormatters_run. fold pre cache' n g.
  unfold bind at 1 2 3. unfold spread, new_object, new_cell.
  cbn [heap calls]. fold merged.
  unfold bind at 1. rewrite locale_fallback_run.
  rewrite context_of_run; [done|].
  simpl. apply bool_decide_eq_true. unfold g', g, n, formatter_cells.
  rewrite !length_app. simpl. lia.
Qed.

Lemma is_function_app h t v :
  validb h v = true → is_function (h ++ t) v = is_function h v.
Proof.
  destruct v; simpl; try done. rewrite bool_decide_eq_true. intros Hl.
  by rewrite lookup_app_l.
Qed.

Lemma resolved_app h t config k :
  validb h config = true → validb h DEFAULT_INTL_CONFIG = true →
  resolved (h ++ t) config k = resolved h config k.
Proof. intros Hc Hd. unfold resolved. by rewrite !own_props_app. Qed.

Lemma resolved_fields_app h t config :
  validb h config = true → validb h DEFAULT_INTL_CONFIG = true →
  resolved_fields (h ++ t) config = resolved_fields h config.
Proof.
  intros Hc Hd.
  unfold resolved_fields, falls_back, fallback_locale.
  by rewrite !resolved_app, !own_props_app.
Qed.

Lemma resolved_valid h config k :
  closedb h = true → validb h (resolved h config k) = true.
Proof.
  intros Hcl. unfold resolved.
  destruct ((_ ∪ _) !! k) as [x|] eqn:Hx; simpl; [|done].
  apply lookup_union_Some_raw in Hx as [Hx|[_ Hx]]; by eapply own_props_valid.
Qed.

Lemma resolved_has_own h config k :
  resolved h config k
  = if has_own h config k then get_prop h config k
    else get_prop h DEFAULT_INTL_CONFIG k.
Proof.
  unfold resolved, has_own, get_prop. rewrite lookup_union.
  destruct (own_props h config !! k) as [x|] eqn:Hx.
  - rewrite bool_decide_eq_true_2 by eauto.
    by destruct (own_props h DEFAULT_INTL_CONFIG !! k).
  - rewrite bool_decide_eq_false_2 by (by intros []).
    by destruct (own_props h DEFAULT_INTL_CONFIG !! k).
Qed.

Lemma resolved_fields_other h config k :
  k ≠ "locale" →
  default VUndefined (resolved_fields h config !! k) = resolved h config k.
Proof.
  intros Hk. unfold resolved_fields.
  destruct (falls_back h config); [|done]. by rewrite lookup_insert_ne.
Qed.

Lemma resolved_fields_locale h config :
  default VUndefined (resolved_fields h config !! "locale")
  = if falls_back h config then fallback_locale h config
    else resolved h config "locale".
Proof.
  unfold resolved_fields.
  destruct (falls_back h config); [|done]. by rewrite lookup_insert_eq.
Qed.

(** What [createIntl] returns and leaves behind, in a store where the
    configuration and the defaults are in place. *)
Lemma createIntl_spec config cache w :
  closedb (heap w) = true →
  validb (heap w) config = true →
  validb (heap w) DEFAULT_INTL_CONFIG = true →
  let h := heap w in
  ∃ t i rc,
    createIntl config cache w
      = (VRef i, World (h ++ t) (reported h config (calls w))) ∧
    (∀ k, k ∉ bundle_fields →
          get_prop (h ++ t) (VRef i) k
          = default VUndefined (resolved_fields h config !! k)) ∧
    context_config (h ++ t) (VRef i) = VRef rc ∧
    plain (h ++ t) (VRef rc) (resolved_fields h config) ∧
    is_function (h ++ t) (VRef i) = false.
Proof.
  intros Hcl Hc Hd h. rewrite createIntl_run.
  set (pre := if decide _ then _ else _).
  set (cache' := if decide _ then _ else _).
  set (FC := formatter_cells _ _).
  assert ((heap w ++ pre) ++ FC = h ++ pre ++ FC) as ->
    by (by rewrite <- app_assoc).
  rewrite resolved_fields_app by done.
  rewrite !resolved_app by done.
  assert (falls_back (h ++ pre ++ FC) config = falls_back h config) as ->
    by (unfold falls_back; by rewrite !resolved_app).
  rewrite !own_props_app by done.
  replace ((h ++ pre ++ FC)
             ++ [Cell (own_props h config ∪ own_props h DEFAULT_INTL_CONFIG)
                   None])
    with (h ++ (pre ++ FC)
            ++ [Cell (own_props h config ∪ own_props h DEFAULT_INTL_CONFIG)
                  None])
    by (by rewrite <- !app_assoc).
  rewrite is_function_app by (by apply resolved_valid).
  set (g := h ++ pre ++ FC).
  set (g' := g ++ [Cell (resolved_fields h config) None]).
  set (cells := context_cells g' (length g) _).
  exists ((pre ++ FC) ++ [Cell (resolved_fields h config) None] ++ cells),
    (length g' + 10), (length g).
  assert (h ++ (pre ++ FC) ++ [Cell (resolved_fields h config) None] ++ cells
          = g' ++ cells) as ->
    by (unfold g', g; by rewrite <- !app_assoc).
  split; [done|].
  assert (own_props g' (VRef (length g)) = resolved_fields h config) as Hrc.
  { unfold g'. simpl. by rewrite list_lookup_middle. }
  split_and!.
  - intros k Hk. rewrite get_prop_at. unfold cells, context_cells. simpl.
    unfold bundle_fields in Hk. rewrite !not_elem_of_cons in Hk.
    destruct_and! Hk. rewrite !lookup_insert_ne by done.
    fold (own_props g' (VRef (length g))). by rewrite Hrc.
  - unfold context_config. rewrite get_prop_at. unfold cells at 1.
    unfold context_cells at 1. simpl.
    rewrite lookup_insert_ne, lookup_insert_eq by done. simpl.
    rewrite lookup_app_r by lia.
    replace (length g' + 8 - length g') with 8 by lia. done.
  - exists (length g). split; [done|]. unfold g'.
    rewrite <- app_assoc. cbn [app]. by rewrite list_lookup_middle.
  - simpl. rewrite lookup_app_r by lia.
    replace (length g' + 10 - length g') with 10 by lia. done.
Qed.

Lemma canonical_not_bundle k : k ∈ canonical_fields → k ∉ bundle_fields.
Proof.
  unfold canonical_fields. rewrite !elem_of_cons, elem_of_nil. intros Hk.
  destruct_or! Hk; try done; subst; by apply (bool_decide_unpack _).
Qed.

Lemma locale_not_bundle : "locale" ∉ bundle_fields.
Proof. by apply (bool_decide_unpack _). Qed.

(** ** Locale fallback *)

(** C5.  When the locale of the resolved configuration is unset or not
    supported and its [onError] is a function, [createIntl] calls that
    function exactly once, with the error made from the missing-locale
    message, and returns a context (it does not throw) whose locale, like
    that of the configuration its formatters are bound to, is the resolved
    [defaultLocale], or "en" when there is none. *)
Theorem missing_locale_reported config cache w :
  closedb (heap w) = true →
  validb (heap w) config = true →
  validb (heap w) DEFAULT_INTL_CONFIG = true →
  let h := heap w in
  falls_back h config = true →
  is_function h (resolved h config "onError") = true →
  let '(intl, w') := createIntl config cache w in
  calls w' =
    calls w ++ [Call (resolved h config "onError")
                  [createError
                     (missing_locale_message (resolved h config "locale")
                        (resolved h config "defaultLocale"))]] ∧
  plain (heap w') (context_config (heap w') intl) (resolved_fields h config) ∧
  is_function (heap w') intl = false ∧
  get_prop (heap w') intl "locale"
    = (if truthy (resolved h config "defaultLocale")
       then resolved h config "defaultLocale" else VStr "en") ∧
  get_prop (heap w') (context_config (heap w') intl) "locale"
    = (if truthy (resolved h config "defaultLocale")
       then resolved h config "defaultLocale" else VStr "en").
Proof.
  intros Hcl Hc Hd h Hfalls Hfun.
  destruct (createIntl_spec config cache w Hcl Hc Hd)
    as (t & i & rc & Heq & Hfields & Hcc & Hrc & Hplain).
  subst h. rewrite Heq. cbn [heap calls]. rewrite Hcc.
  unfold reported. rewrite Hfalls, Hfun. simpl.
  split_and!; try done.
  - rewrite Hfields by apply locale_not_bundle.
    by rewrite resolved_fields_locale, Hfalls.
  - unfold get_prop. rewrite (plain_own_props _ _ _ Hrc).
    by rewrite resolved_fields_locale, Hfalls.
Qed.

(** C9.  When the locale of the resolved configuration is unset or not
    supported and its [onError] is not a function, [createIntl] calls
    nothing and returns a context (it does not throw) whose locale is the
    fallback locale. *)
Theorem missing_locale_unreported config cache w :
  closedb (heap w) = true →
  validb (heap w) config = true →
  validb (heap w) DEFAULT_INTL_CONFIG = true →
  let h := heap w in
  falls_back h config = true →
  is_function h (resolved h config "onError") = false →
  let '(intl, w') := createIntl config cache w in
  calls w' = calls w ∧
  plain (heap w') (context_config (heap w') intl) (resolved_fields h config) ∧
  is_function (heap w') intl = false ∧
  get_prop (heap w') intl "locale"
    = (if truthy (resolved h config "defaultLocale")
       then resolved h config "defaultLocale" else VStr "en") ∧
  get_prop (heap w') (context_config (heap w') intl) "locale"
    = (if truthy (resolved h config "defaultLocale")
       then resolved h config "defaultLocale" else VStr "en").
Proof.
  intros Hcl Hc Hd h Hfalls Hfun.
  destruct (createIntl_spec config cache w Hcl Hc Hd)
    as (t & i & rc & Heq & Hfields & Hcc & Hrc & Hplain).
  subst h. rewrite Heq. cbn [heap calls]. rewrite Hcc.
  unfold reported. rewrite Hfalls, Hfun. simpl.
  split_and!; try done.
  - rewrite Hfields by apply locale_not_bundle.
    by rewrite resolved_fields_locale, Hfalls.
  - unfold get_prop. rewrite (plain_own_props _ _ _ Hrc).
    by rewrite resolved_fields_locale, Hfalls.
Qed.

(** ** Merging over the defaults *)

(** C6, as amended.  Every field of the context other than the ones
    [createIntl] adds, and every field of the configuration its
    formatters are bound to, is the configuration's own property when the
    configuration has that key (whatever its value, [undefined]
    included) and the default otherwise; [locale] is so when no fallback
    happens. *)
Theorem configuration_merged_over_defaults config cache w k :
  closedb (heap w) = true →
  validb (heap w) config = true →
  validb (heap w) DEFAULT_INTL_CONFIG = true →
  let h := heap w in
  (k = "locale" → falls_back h config = false) →
  let '(intl, w') := createIntl config cache w in
  get_prop (heap w') (context_config (heap w') intl) k
    = (if has_own h config k then get_prop h config k
       else get_prop h DEFAULT_INTL_CONFIG k) ∧
  (k ∉ bundle_fields →
   get_prop (heap w') intl k
     = (if has_own h config k then get_prop h config k
        else get_prop h DEFAULT_INTL_CONFIG k)).
Proof.
  intros Hcl Hc Hd h Hk.
  destruct (createIntl_spec config cache w Hcl Hc Hd)
    as (t & i & rc & Heq & Hfields & Hcc & Hrc & Hplain).
  subst h. rewrite Heq. cbn [heap calls]. rewrite Hcc.
  rewrite <- resolved_has_own.
  assert (default VUndefined (resolved_fields (heap w) config !! k)
          = resolved (heap w) config k) as Hres.
  { destruct (decide (k = "locale")) as [->|Hne].
    - by rewrite resolved_fields_locale, Hk.
    - by apply resolved_fields_other. }
  split.
  - unfold get_prop. by rewrite (plain_own_props _ _ _ Hrc).
  - intros Hb. by rewrite Hfields.
Qed.

(** C7.  On a locale fallback every field other than [locale] of the
    configuration that the formatters are bound to, and every such field
    of the context that [createIntl] does not add itself, is the resolved
    one; the [messages] of the configuration are those of the context. *)
Theorem fallback_keeps_other_fields config cache w :
  closedb (heap w) = true →
  validb (heap w) config = true →
  validb (heap w) DEFAULT_INTL_CONFIG = true →
  let h := heap w in
  falls_back h config = true →
  let '(intl, w') := createIntl config cache w in
  (∀ k, k ≠ "locale" →
     get_prop (heap w') (context_config (heap w') intl) k
       = resolved h config k ∧
     (k ∉ bundle_fields → get_prop (heap w') intl k = resolved h config k)) ∧
  get_prop (heap w') intl "messages" = resolved h config "messages" ∧
  (has_own h config "messages" = true →
   get_prop (heap w') intl "messages" = get_prop h config "messages" ∧
   get_prop (heap w') (context_config (heap w') intl) "messages"
     = get_prop h config "messages").
Proof.
  intros Hcl Hc Hd h Hfalls.
  destruct (createIntl_spec config cache w Hcl Hc Hd)
    as (t & i & rc & Heq & Hfields & Hcc & Hrc & Hplain).
  subst h. rewrite Heq. cbn [heap calls]. rewrite Hcc.
  assert (∀ k, k ≠ "locale" →
     get_prop (heap w ++ t) (VRef rc) k = resolved (heap w) config k ∧
     (k ∉ bundle_fields →
      get_prop (heap w ++ t) (VRef i) k = resolved (heap w) config k)) as Hall.
  { intros k Hk. split.
    - unfold get_prop. rewrite (plain_own_props _ _ _ Hrc).
      by apply resolved_fields_other.
    - intros Hb. rewrite Hfields by done. by apply resolved_fields_other. }
  assert ("messages" ∉ bundle_fields) as Hm
    by (apply canonical_not_bundle; by repeat constructor).
  split; [done|]. split; [by apply Hall|].
  intros Hown. specialize (Hall "messages").
  rewrite (resolved_has_own (heap w) config "messages"), Hown in Hall.
  destruct Hall as [H1 H2]; [done|]. split; [by apply H2|done].
Qed.

(** ** The cache of a provider *)

Lemma createIntl_prefix config cache w :
  heap w `prefix_of` heap (createIntl config cache w).2.
Proof. rewrite createIntl_run. simpl. by do 4 apply prefix_app_r. Qed.

Lemma lookup_at {A} (h cells : list A) i :
  (h ++ cells) !! (length h + i) = cells !! i.
Proof.
  rewrite lookup_app_r by lia. f_equal. lia.
Qed.

(** A context is built over the cache that [createIntl] is given. *)
Lemma createIntl_built_over config cache w :
  cache ≠ VUndefined →
  built_over (heap (createIntl config cache w).2)
    (createIntl config cache w).1 cache.
Proof.
  intros Hc. rewrite createIntl_run. rewrite !decide_False by done.
  cbn [fst snd heap]. rewrite app_nil_r.
  set (g' := (heap w ++ _) ++ [_]). set (cells := context_cells _ _ _).
  assert (get_prop (g' ++ cells) (VRef (length g' + 10)) "formatters"
          = VRef (length (heap w) + 4)) as Hfm.
  { rewrite get_prop_at. unfold cells, context_cells. simpl.
    by rewrite !lookup_insert_ne, lookup_insert_eq by done. }
  intros k Hk. unfold accessor_cache. rewrite Hfm. clear Hfm.
  assert (∃ rest, g' ++ cells
                  = heap w ++ formatter_cells (length (heap w)) cache ++ rest)
    as [rest ->].
  { eexists. unfold g'. by rewrite <- !app_assoc. }
  rewrite get_prop_at.
  unfold formatter_cells. simpl.
  rewrite !elem_of_cons, elem_of_nil in Hk.
  destruct_or! Hk; try done; subst; simpl.
  - rewrite !lookup_insert_ne, lookup_insert_eq by done. simpl.
    by rewrite <- (Nat.add_0_r (length (heap w))), lookup_at.
  - rewrite !lookup_insert_ne, lookup_insert_eq by done. simpl.
    by rewrite lookup_at.
  - rewrite !lookup_insert_ne, lookup_insert_eq by done. simpl.
    by rewrite lookup_at.
  - rewrite lookup_insert_eq. simpl. by rewrite lookup_at.
Qed.

Lemma get_prop_prefix h h' v k :
  h `prefix_of` h' → get_prop h v k ≠ VUndefined →
  get_prop h' v k = get_prop h v k.
Proof.
  intros Hp. unfold get_prop, own_props. destruct v; try done.
  destruct (h !! l) as [c|] eqn:Hl; [|by rewrite lookup_empty].
  assert (h' !! l = Some c) as -> by (by eapply prefix_lookup_Some). done.
Qed.

Lemma accessor_cache_prefix h h' fm k c :
  h `prefix_of` h' → accessor_cache h fm k = Some c →
  accessor_cache h' fm k = Some c.
Proof.
  intros Hp. unfold accessor_cache.
  destruct (get_prop h fm k) as [| | | | | |g] eqn:Hg; try done.
  rewrite (get_prop_prefix h h') by (done || congruence). rewrite Hg.
  destruct (h !! g) as [cg|] eqn:Hcg; [|done].
  assert (h' !! g = Some cg) as -> by (by eapply prefix_lookup_Some). done.
Qed.

(** Once built over a cache, always built over it: the store only
    grows. *)
Lemma built_over_prefix h h' intl c :
  h `prefix_of` h' → built_over h intl c → built_over h' intl c.
Proof.
  intros Hp Hb k Hk. specialize (Hb k Hk).
  assert (get_prop h intl "formatters" ≠ VUndefined) as Hfm
    by (intros E; by rewrite E in Hb).
  rewrite (get_prop_prefix h h') by done. by eapply accessor_cache_prefix.
Qed.

Lemma processIntlConfig_prefix config w :
  heap w `prefix_of` heap (processIntlConfig config w).2.
Proof.
  destruct (keeps_run _ _ w (keeps_processIntlConfig (heap w) config))
    as (t & Ht & _). by exists t.
Qed.

Lemma cache_kept_prefix c h h' st :
  h `prefix_of` h' → cache_kept c h st → cache_kept c h' st.
Proof. intros Hp [? ?]. split; [done|]. by eapply built_over_prefix. Qed.

(** One configuration event: the state is returned as it is when the
    normalised configuration is shallowly equal to the previous one, and
    with a new context and the new configuration otherwise. *)
Lemma receive_eq props st w :
  receive props st w =
  let '(config, w1) := processIntlConfig props w in
  if shallow_equal (heap w1) (prevConfig st) (VRef config) then (st, w1)
  else
    let '(i, w2) := createIntl (VRef config) (cache st) w1 in
    (mkState (cache st) i (VRef config), w2).
Proof.
  unfold receive, getDerivedStateFromProps, bind, shallowEquals, ret.
  destruct (processIntlConfig props w) as [config w1]. simpl.
  destruct (shallow_equal _ _ _); simpl; [done|].
  by destruct (createIntl _ _ w1).
Qed.

Lemma receive_cache_kept c props st w :
  c ≠ VUndefined → cache_kept c (heap w) st →
  heap w `prefix_of` heap (receive props st w).2 ∧
  cache_kept c (heap (receive props st w).2) (receive props st w).1.
Proof.
  intros Hc [Hst Hb]. rewrite receive_eq.
  pose proof (processIntlConfig_prefix props w) as Hp.
  destruct (processIntlConfig props w) as [config w1]. simpl in Hp.
  destruct (shallow_equal _ _ _); simpl.
  - split; [done|]. split; [done|]. by eapply built_over_prefix.
  - pose proof (createIntl_prefix (VRef config) (cache st) w1) as Hp1.
    pose proof (createIntl_built_over (VRef config) (cache st) w1) as Hb1.
    destruct (createIntl _ _ w1) as [i w2]. simpl in *.
    split; [by etrans|]. split; [done|]. rewrite <- Hst. apply Hb1.
    by rewrite Hst.
Qed.

Lemma receive_all_cache_kept c events :
  c ≠ VUndefined → ∀ st w, cache_kept c (heap w) st →
  heap w `prefix_of` heap (receive_all events st w).2 ∧
  length (receive_all events st w).1 = length events ∧
  Forall (cache_kept c (heap (receive_all events st w).2))
    (receive_all events st w).1.
Proof.
  intros Hc. induction events as [|props events IH]; intros st w Hst; simpl.
  - by split_and!.
  - destruct (receive_cache_kept c props st w Hc Hst) as [Hp Hst'].
    unfold bind. destruct (receive props st w) as [st' w1]. simpl in *.
    destruct (IH st' w1 Hst') as (Hp' & Hlen & Hall).
    destruct (receive_all events st' w1) as [rest w2].
    simpl in *. split_and!; [by etrans|by rewrite Hlen|].
    constructor; [by eapply cache_kept_prefix|done].
Qed.

(** C8.  The cache made when the provider is mounted is a fresh object
    of the store; it is the cache of the state after the mount and after
    every configuration event, and every context of these states, the
    rebuilt ones included, is built over it. *)
Theorem cache_threaded props events w :
  let '(states, w') := lifetime props events w in
  let mounted := VRef (length (heap w)) in
  length states = S (length events) ∧
  heap w' !! length (heap w) = Some (Cell ∅ None) ∧
  Forall (λ st, cache st = mounted ∧ built_over (heap w') (intl st) mounted)
    states.
Proof.
  unfold lifetime, mount, createIntlCache.
  unfold bind at 1 2 3 4. unfold new_object, new_cell, ret at 1.
  cbn [heap calls].
  set (c := VRef (length (heap w))).
  set (w0 := World (heap w ++ [Cell ∅ None]) (calls w)).
  pose proof (processIntlConfig_prefix props w0) as Hp1.
  unfold bind at 1. destruct (processIntlConfig props w0) as [c1 w1].
  pose proof (createIntl_prefix (VRef c1) c w1) as Hp2.
  pose proof (createIntl_built_over (VRef c1) c w1 ltac:(done)) as Hb.
  unfold bind at 1. destruct (createIntl (VRef c1) c w1) as [i w2].
  pose proof (processIntlConfig_prefix props w2) as Hp3.
  unfold bind at 1. destruct (processIntlConfig props w2) as [c2 w3].
  unfold ret. simpl in *.
  set (st := mkState c i (VRef c2)).
  assert (cache_kept c (heap w3) st) as Hst
    by (split; [done|by eapply built_over_prefix]).
  destruct (receive_all_cache_kept c events ltac:(done) st w3 Hst)
    as (Hp4 & Hlen & Hall).
  unfold bind. destruct (receive_all events st w3) as [rest w4]. simpl in *.
  split_and!.
  - by rewrite Hlen.
  - assert (heap w ++ [Cell ∅ None] `prefix_of` heap w4) as Hp
      by (by do 4 (etrans; [eassumption|])).
    eapply prefix_lookup_Some; [|exact Hp]. by rewrite list_lookup_middle.
  - constructor; [by eapply cache_kept_prefix|done].
Qed.

(** ** Change detection *)

Lemma createIntl_fresh config cache w :
  fresh (heap w) (createIntl config cache w).1.
Proof.
  rewrite createIntl_run. cbn [fst]. eexists. split; [done|].
  rewrite !length_app. lia.
Qed.

Lemma forallb_false {A} (f : A → bool) l x :
  In x l → f x = false → forallb f l = false.
Proof.
  intros Hin Hx. destruct (forallb f l) eqn:E; [|done].
  rewrite forallb_forall in E. by rewrite (E x Hin) in Hx.
Qed.

Lemma strict_eq_valid_fresh h a b :
  validb h a = true → fresh h b → strict_eq a b = false.
Proof.
  intros Ha (l & -> & Hl). destruct a; simpl; try done.
  apply bool_decide_eq_true in Ha. apply Nat.eqb_neq. lia.
Qed.

Lemma own_props_prefix h h' v :
  h `prefix_of` h' → validb h v = true → own_props h' v = own_props h v.
Proof. intros [t ->]. apply own_props_app. Qed.

Lemma in_keys h v k :
  In k (map_to_list (own_props h v)).*1 ↔ is_Some (own_props h v !! k).
Proof.
  rewrite <- list_elem_of_In, list_elem_of_fmap. split.
  - intros ([k' x] & -> & Hx). apply elem_of_map_to_list in Hx. by eexists.
  - intros [x Hx]. exists (k, x). split; [done|]. by apply elem_of_map_to_list.
Qed.

(** A configuration with a fresh object in a field that the previous
    configuration has too is never shallowly equal to it. *)
Lemma shallow_equal_fresh_field h h' prev c k :
  h `prefix_of` h' → closedb h = true → validb h prev = true →
  fresh h (VRef c) → has_own h prev k = true →
  fresh h (get_prop h' (VRef c) k) →
  shallow_equal h' prev (VRef c) = false.
Proof.
  intros Hp Hcl Hv Hc Hk Hf. unfold shallow_equal.
  rewrite (strict_eq_valid_fresh h) by done.
  destruct (negb (truthy prev) || _); [done|].
  destruct (negb (Nat.eqb _ _)); [done|].
  apply (forallb_false _ _ k).
  - apply in_keys. rewrite (own_props_prefix h h') by done.
    by apply bool_decide_eq_true in Hk.
  - apply (strict_eq_valid_fresh h); [|done]. unfold get_prop.
    rewrite (own_props_prefix h h') by done. by apply get_prop_valid.
Qed.

(** The defect behind C1 and C10, in general.  When the properties have a
    time zone and some preset map to inject it into, the event never
    finds the normalised configuration shallowly equal to the previous
    one, whatever that one is: the context of the resulting state is a
    new object of the store. *)
Lemma guard_rebuilds_with_timeZone props st w group slot :
  closedb (heap w) = true →
  props < length (heap w) →
  validb (heap w) (prevConfig st) = true →
  has_own (heap w) (prevConfig st) group = true →
  group ∈ ["formats"; "defaultFormats"] →
  slot ∈ ["date"; "time"] →
  truthy (get_prop (heap w) (VRef props) "timeZone") = true →
  truthy (get_prop (heap w) (get_prop (heap w) (VRef props) group) slot)
    = true →
  fresh (heap w) (intl (receive props st w).1) ∧
  fresh (heap w) (prevConfig (receive props st w).1).
Proof.
  intros Hcl Hc Hprev Hown Hg Hs Htz Hpre. rewrite receive_eq.
  assert (∀ k, formats_ok (heap w) (get_prop (heap w) (VRef props) k)) as Hok
    by (intros k; apply closedb_formats_ok; [done|by apply get_prop_valid]).
  destruct (processIntlConfig_run props w Hc (Hok _) (Hok _))
    as (f & df & t & Hp & Hb).
  rewrite Hp. cbn [heap calls]. clear Hp.
  unfold both_injected in Hb. rewrite Htz in Hb. simpl in Hb.
  destruct Hb as [Hf Hdf].
  set (lit := canonical_literal _ _ _ _ _ _ _ _).
  set (h' := (heap w ++ t) ++ [Cell lit None]).
  assert (fresh (heap w) (VRef (length (heap w ++ t)))) as Hfc
    by (eexists; split; [done|]; rewrite length_app; lia).
  assert (fresh (heap w) (get_prop h' (VRef (length (heap w ++ t))) group))
    as Hfg.
  { unfold h'. rewrite normalised_field_read. unfold lit.
    assert (truthy (get_prop (heap w) (VRef props) group) = true) as Htg
      by (by eapply truthy_get_prop).
    assert (truthy (get_prop (heap w) (get_prop (heap w) (VRef props) group)
                      "date")
            || truthy (get_prop (heap w)
                         (get_prop (heap w) (VRef props) group) "time")
            = true) as Hdt.
    { rewrite !elem_of_cons, elem_of_nil in Hs.
      destruct_or! Hs; try done; subst; rewrite Hpre; [done|].
      by rewrite orb_true_r. }
    rewrite !elem_of_cons, elem_of_nil in Hg.
    destruct_or! Hg; try done; subst;
      rewrite canonical_literal_lookup by (by repeat constructor); simpl.
    - unfold formats_injected in Hf. rewrite Htg, Hdt in Hf.
      by destruct Hf as (m & _ & _ & _ & _ & Hfr).
    - unfold formats_injected in Hdf. rewrite Htg, Hdt in Hdf.
      by destruct Hdf as (m & _ & _ & _ & _ & Hfr). }
  assert (heap w `prefix_of` h') as Hpf
    by (unfold h'; rewrite <- app_assoc; by apply prefix_app_r).
  rewrite (shallow_equal_fresh_field (heap w) h' _ _ group) by done.
  pose proof (createIntl_fresh (VRef (length (heap w ++ t))) (cache st)
                (World h' (calls w))) as (i & Hi & Hl).
  pose proof (prefix_length _ _ Hpf) as Hlen.
  destruct (createIntl _ _ _) as [intl' w2]. simpl in *. subst intl'.
  split; [eexists; split; [done|]; lia|done].
Qed.

Lemma canonical_literal_raw (raw : string → value) k :
  k ∈ canonical_fields →
  canonical_literal (raw "locale") (raw "timeZone") (raw "formats")
    (raw "textComponent") (raw "messages") (raw "defaultLocale")
    (raw "defaultFormats") (raw "onError") !! k = Some (raw k).
Proof.
  intros Hk. rewrite canonical_literal_lookup by done.
  unfold canonical_fields in Hk. rewrite !elem_of_cons, elem_of_nil in Hk.
  destruct_or! Hk; by subst.
Qed.

(** The path that works.  When the properties have no time zone and agree
    field by field, under [===], with a previous configuration that has the
    eight fields, the event returns the state as it is: the same context
    object. *)
Lemma guard_reuses_without_timeZone props st w prev :
  props < length (heap w) →
  plain (heap w) (prevConfig st) prev →
  dom prev = list_to_set (C := gset string) canonical_fields →
  (∀ k, k ∈ canonical_fields →
        strict_eq (default VUndefined (prev !! k))
          (get_prop (heap w) (VRef props) k) = true) →
  truthy (get_prop (heap w) (VRef props) "timeZone") = false →
  (receive props st w).1 = st.
Proof.
  intros Hc Hprev Hdom Hsame Htz. rewrite receive_eq.
  destruct (processIntlConfig_shape props w Hc) as (f & df & t & Hb & Hp).
  rewrite Hp. cbn [heap calls]. clear Hp.
  unfold inject_both in Hb. rewrite Htz in Hb. unfold ret in Hb.
  injection Hb as <- <- _.
  set (raw := get_prop (heap w) (VRef props)).
  set (lit := canonical_literal _ _ _ _ _ _ _ _).
  set (h' := (heap w ++ t) ++ [Cell lit None]).
  assert (heap w `prefix_of` h') as Hpf
    by (unfold h'; rewrite <- app_assoc; by apply prefix_app_r).
  apply (plain_prefix _ _ _ _ Hpf) in Hprev.
  assert (own_props h' (VRef (length (heap w ++ t))) = lit) as Hlit
    by (unfold h'; simpl; by rewrite list_lookup_middle).
  assert (shallow_equal h' (prevConfig st) (VRef (length (heap w ++ t)))
          = true) as ->; [|done].
  unfold shallow_equal. destruct (strict_eq _ _); [done|].
  rewrite (plain_truthy _ _ _ Hprev). cbn [truthy negb orb].
  rewrite (plain_own_props _ _ _ Hprev), Hlit.
  assert (length (map_to_list lit).*1 = length (map_to_list prev).*1) as ->.
  { rewrite !length_fmap, !length_map_to_list.
    rewrite <- !size_dom, Hdom. unfold lit. by rewrite canonical_literal_dom. }
  rewrite Nat.eqb_refl. cbn [negb].
  apply forallb_forall. intros k Hk.
  rewrite <- (plain_own_props _ _ _ Hprev) in Hk. apply in_keys in Hk.
  rewrite (plain_own_props _ _ _ Hprev) in Hk.
  apply elem_of_dom in Hk. rewrite Hdom, elem_of_list_to_set in Hk.
  unfold get_prop. rewrite (plain_own_props _ _ _ Hprev), Hlit.
  unfold lit. rewrite (canonical_literal_raw raw) by done. by apply Hsame.
Qed.

(** * Further properties of the code *)

(** ** Normalisation leaves the store as it is *)

Lemma silent_processIntlConfig config : silent (processIntlConfig config).
Proof.
  rewrite processIntlConfig_unfold.
  do 3 (apply silent_bind; [by intros ?|intros ?]).
  apply silent_bind; [apply silent_inject_both|intros ?].
  repeat silent_step.
Qed.

(** X1.  [processIntlConfig] only reads what it is given.  Whatever the
    configuration and the store, every object that was in the store is
    still there unchanged afterwards (the store has only grown: the one
    assignment of [setTimeZoneInOptions], [all[k] = ...], writes to the
    accumulator it has just made), no function has been called, and the
    result is an object that was not in the store. *)
Theorem normalisation_reads_only config w :
  heap w `prefix_of` heap (processIntlConfig config w).2 ∧
  calls (processIntlConfig config w).2 = calls w ∧
  fresh (heap w) (VRef (processIntlConfig config w).1).
Proof.
  destruct (keeps_run _ _ w (keeps_processIntlConfig (heap w) config))
    as (t & Ht & Hl).
  split_and!.
  - by exists t.
  - apply silent_processIntlConfig.
  - by eexists.
Qed.

(** ** Fields passed through *)

Lemma both_injected_fst base h tz f df r :
  both_injected base h tz f df r →
  truthy tz && truthy f
    && (truthy (get_prop base f "date") || truthy (get_prop base f "time"))
    = false →
  r.1 = f.
Proof.
  unfold both_injected, formats_injected. destruct (truthy tz); simpl.
  - intros [Hf _] Hc. by rewrite Hc in Hf.
  - by intros ->.
Qed.

Lemma both_injected_snd base h tz f df r :
  both_injected base h tz f df r →
  truthy tz && truthy df
    && (truthy (get_prop base df "date") || truthy (get_prop base df "time"))
    = false →
  r.2 = df.
Proof.
  unfold both_injected, formats_injected. destruct (truthy tz); simpl.
  - intros [_ Hf] Hc. by rewrite Hc in Hf.
  - by intros ->.
Qed.

(** X2.  A field of the normalised configuration is the very value of
    the raw configuration, the same reference for an object, unless it
    is [formats] or [defaultFormats] and the time zone is injected into
    it.  In particular nothing is copied when there is no time zone, or
    when a group has neither [date] nor [time] presets. *)
Theorem fields_passed_through config w k :
  closedb (heap w) = true →
  config < length (heap w) →
  k ∈ canonical_fields →
  (k ∈ ["formats"; "defaultFormats"] →
   injects (heap w) (VRef config) k = false) →
  get_prop (heap (processIntlConfig config w).2)
    (VRef (processIntlConfig config w).1) k
  = get_prop (heap w) (VRef config) k.
Proof.
  intros Hcl Hc Hk Hinj.
  assert (∀ k, formats_ok (heap w) (get_prop (heap w) (VRef config) k)) as Hok
    by (intros ?; apply closedb_formats_ok; [done|by apply get_prop_valid]).
  destruct (processIntlConfig_run config w Hc (Hok _) (Hok _))
    as (f & df & t & Hp & Hb).
  rewrite Hp. cbn [fst snd heap]. rewrite normalised_field_read.
  rewrite canonical_literal_lookup by done.
  unfold canonical_fields in Hk. rewrite !elem_of_cons, elem_of_nil in Hk.
  destruct_or! Hk; try done; subst; simpl; try done.
  - apply (both_injected_fst _ _ _ _ _ _ Hb). apply Hinj. by repeat constructor.
  - apply (both_injected_snd _ _ _ _ _ _ Hb). apply Hinj. by repeat constructor.
Qed.

(** X3.  Where the time zone is injected into [formats] or
    [defaultFormats], the group of the normalised configuration is a new
    plain object; it holds what the raw group holds under every key other
    than [date] and [time], the same references, and under a [date] or
    [time] that is falsy too: a slot that the raw group does not have is
    not added. *)
Theorem injection_keeps_other_keys config w group :
  closedb (heap w) = true →
  config < length (heap w) →
  group ∈ ["formats"; "defaultFormats"] →
  injects (heap w) (VRef config) group = true →
  let h := heap w in
  let before := get_prop h (VRef config) group in
  let h' := heap (processIntlConfig config w).2 in
  let after := get_prop h' (VRef (processIntlConfig config w).1) group in
  fresh h after ∧
  (∃ m, plain h' after m) ∧
  (∀ k, k ≠ "date" → k ≠ "time" →
        own_props h' after !! k = own_props h before !! k) ∧
  (∀ slot, slot ∈ ["date"; "time"] →
           truthy (get_prop h before slot) = false →
           own_props h' after !! slot = own_props h before !! slot).
Proof.
  intros Hcl Hc Hg Hinj h before h' after.
  assert (∀ k, formats_ok (heap w) (get_prop (heap w) (VRef config) k)) as Hok
    by (intros ?; apply closedb_formats_ok; [done|by apply get_prop_valid]).
  destruct (processIntlConfig_run config w Hc (Hok _) (Hok _))
    as (f & df & t & Hp & Hb).
  unfold after, h'. rewrite Hp. cbn [fst snd heap].
  rewrite normalised_field_read.
  unfold injects in Hinj. apply andb_true_iff in Hinj as [Hinj Hdt].
  apply andb_true_iff in Hinj as [Htz Hgr].
  unfold both_injected in Hb. rewrite Htz in Hb. destruct Hb as [Hf Hdf].
  simpl in Hf, Hdf.
  assert (formats_injected h (heap w ++ t) (get_prop h (VRef config) "timeZone")
            before
            (default VUndefined
               (canonical_literal (get_prop (heap w) (VRef config) "locale")
                  (get_prop (heap w) (VRef config) "timeZone") f
                  (get_prop (heap w) (VRef config) "textComponent")
                  (get_prop (heap w) (VRef config) "messages")
                  (get_prop (heap w) (VRef config) "defaultLocale") df
                  (get_prop (heap w) (VRef config) "onError") !! group)))
    as Hinjd.
  { rewrite !elem_of_cons, elem_of_nil in Hg.
    destruct_or! Hg; try done; subst;
      by rewrite canonical_literal_lookup by (by repeat constructor). }
  clear Hf Hdf. unfold formats_injected in Hinjd.
  fold h before in Hgr, Hdt. rewrite Hgr, Hdt in Hinjd. simpl in Hinjd.
  destruct Hinjd as (m & Hm & Hother & Hdate & Htime & Hfr).
  apply (plain_app _ [Cell (canonical_literal
           (get_prop (heap w) (VRef config) "locale")
           (get_prop (heap w) (VRef config) "timeZone") f
           (get_prop (heap w) (VRef config) "textComponent")
           (get_prop (heap w) (VRef config) "messages")
           (get_prop (heap w) (VRef config) "defaultLocale") df
           (get_prop (heap w) (VRef config) "onError")) None]) in Hm.
  split_and!; [done|by exists m| |].
  - intros k ? ?. rewrite (plain_own_props _ _ _ Hm). by apply Hother.
  - intros slot Hs Hfalsy. rewrite (plain_own_props _ _ _ Hm).
    unfold slot_injected in Hdate, Htime.
    rewrite !elem_of_cons, elem_of_nil in Hs.
    destruct_or! Hs; try done; subst.
    + fold (get_prop h before "date") in Hdate. by rewrite Hfalsy in Hdate.
    + fold (get_prop h before "time") in Htime. by rewrite Hfalsy in Htime.
Qed.

(** ** The objects that [setTimeZoneInOptions] makes *)




(** ** What [createIntl] does to the store *)

(** The store that [createIntl] leaves: the store [g] it found, grown by
    the cells of [createFormatters]; the resolved configuration; the ten
    bound functions and the context.  The one call that it may make is a
    call of the [onError] of the resolved configuration. *)
Lemma createIntl_cells config cache w :
  ∃ g fm rf cl',
    heap w `prefix_of` g ∧ validb g fm = true ∧ fresh (heap w) fm ∧
    (cl' = calls w
     ∨ ∃ e, cl' = calls w ++ [Call (default VUndefined (rf !! "onError"))
                                [createError e]]) ∧
    createIntl config cache w
    = (VRef (length (g ++ [Cell rf None]) + 10),
       World ((g ++ [Cell rf None])
                ++ context_cells (g ++ [Cell rf None]) (length g) fm) cl').
Proof.
  rewrite createIntl_run.
  set (pre := if decide _ then _ else _).
  set (cache' := if decide _ then _ else _).
  set (g := (heap w ++ pre) ++ formatter_cells _ _).
  set (cl' := if _ && _ then _ else _).
  exists g, (VRef (length (heap w ++ pre) + 4)), (resolved_fields g config), cl'.
  split_and!; [| | | |done].
  - unfold g. rewrite <- app_assoc. by apply prefix_app_r.
  - simpl. apply bool_decide_eq_true. unfold g, formatter_cells.
    rewrite !length_app. simpl. lia.
  - eexists. split; [done|]. rewrite length_app. lia.
  - unfold cl'. destruct (_ && _); [right|by left].
    eexists. by rewrite resolved_fields_other.
Qed.

(** What a context holds under a key that [createIntl] does not add:
    the property of the resolved configuration. *)
Lemma context_cells_field g rf fm k :
  k ∉ bundle_fields →
  get_prop ((g ++ [Cell rf None])
              ++ context_cells (g ++ [Cell rf None]) (length g) fm)
    (VRef (length (g ++ [Cell rf None]) + 10)) k
  = default VUndefined (rf !! k).
Proof.
  intros Hk. rewrite get_prop_at. unfold context_cells. simpl.
  unfold bundle_fields in Hk. rewrite !not_elem_of_cons in Hk.
  destruct_and! Hk. rewrite !lookup_insert_ne by done.
  rewrite list_lookup_middle by done. reflexivity.
Qed.

(** X6.  [createIntl] leaves every object of the store as it was, the
    configuration, the defaults and the cache included: the fallback
    locale of line 182 is written to a copy.  It returns a new plain
    object, and it calls at most one function of the caller's, once: the
    [onError] that the context carries, with one argument that
    [createError] made. *)
Theorem createIntl_effects config cache w :
  let r := createIntl config cache w in
  heap w `prefix_of` heap r.2 ∧
  fresh (heap w) r.1 ∧
  is_function (heap r.2) r.1 = false ∧
  (calls r.2 = calls w
   ∨ ∃ e, calls r.2
          = calls w ++ [Call (get_prop (heap r.2) r.1 "onError")
                          [createError e]]).
Proof.
  intros r. unfold r.
  destruct (createIntl_cells config cache w)
    as (g & fm & rf & cl' & Hp & Hfm & Hfr & Hcl & ->).
  cbn [fst snd heap calls]. pose proof (prefix_length _ _ Hp) as Hlen.
  split_and!.
  - etrans; [exact Hp|]. rewrite <- app_assoc. by apply prefix_app_r.
  - eexists. split; [done|]. rewrite length_app. lia.
  - simpl. by rewrite lookup_at.
  - rewrite context_cells_field by (by apply (bool_decide_unpack _)). done.
Qed.

Lemma lookup_at_0 {A} (h cells : list A) :
  (h ++ cells) !! length h = cells !! 0.
Proof. by rewrite <- (Nat.add_0_r (length h)), lookup_at. Qed.

(** What the context holds under a key of [bindings], found in the
    store. *)
Ltac bound_at g cells :=
  unfold bound_to; rewrite get_prop_at;
  unfold cells, context_cells; simpl;
  rewrite ?lookup_insert_ne by done; rewrite lookup_insert_eq; simpl;
  first [rewrite lookup_at|rewrite lookup_at_0]; reflexivity.

(** X7.  The ten formatting functions of a context are all bound to one
    and the same resolved configuration, a new object that agrees with
    the context on every key other than the eleven that [createIntl]
    adds.  Each of the first eight is bound, after it, to its accessor of
    the context's [formatters], [formatMessage] and [formatHTMLMessage]
    to the [formatters] object itself. *)
Theorem formatters_share_configuration config cache w :
  let r := createIntl config cache w in
  let h' := heap r.2 in
  let formatters := get_prop h' r.1 "formatters" in
  ∃ rc,
    fresh (heap w) (VRef rc) ∧
    (∀ k, k ∉ bundle_fields → get_prop h' (VRef rc) k = get_prop h' r.1 k) ∧
    Forall (λ b, bound_to h' (get_prop h' r.1 b.1)
                 = Some (b.1, [VRef rc; get_prop h' formatters b.2]))
      bindings ∧
    Forall (λ name, bound_to h' (get_prop h' r.1 name)
                    = Some (name, [VRef rc; formatters]))
      ["formatMessage"; "formatHTMLMessage"].
Proof.
  intros r h' formatters. unfold formatters, h', r.
  destruct (createIntl_cells config cache w)
    as (g & fm & rf & cl' & Hp & Hfm & Hfr & Hcl & ->).
  cbn [fst snd heap calls]. pose proof (prefix_length _ _ Hp) as Hlen.
  set (g' := g ++ [Cell rf None]).
  set (cells := context_cells g' (length g) fm).
  exists (length g).
  assert (∀ k, get_prop (g' ++ cells) (VRef (length g)) k
               = default VUndefined (rf !! k)) as Hrc.
  { intros k. unfold g'. rewrite <- app_assoc. cbn [app].
    unfold get_prop. simpl. by rewrite list_lookup_middle. }
  assert (get_prop (g' ++ cells) (VRef (length g' + 10)) "formatters" = fm)
    as Hfmt.
  { rewrite get_prop_at. unfold cells, context_cells. simpl.
    by rewrite !lookup_insert_ne, lookup_insert_eq by done. }
  assert (∀ k, get_prop (g' ++ cells) fm k = get_prop g' fm k) as Hacc.
  { intros k. apply get_prop_app. unfold g'. by apply validb_app. }
  split_and!.
  - eexists. split; [done|]. lia.
  - intros k Hk. rewrite Hrc, get_prop_at. unfold cells, context_cells. simpl.
    unfold bundle_fields in Hk. rewrite !not_elem_of_cons in Hk.
    destruct_and! Hk. rewrite !lookup_insert_ne by done.
    unfold g'. rewrite list_lookup_middle by done. reflexivity.
  - rewrite Hfmt. unfold bindings.
    repeat (constructor; [cbn [fst snd]; rewrite Hacc; bound_at g' cells|]).
    constructor.
  - rewrite Hfmt.
    repeat (constructor; [bound_at g' cells|]).
    constructor.
Qed.

(** ** A supported locale *)

(** X8.  When the locale of the resolved configuration is truthy and
    supported, [createIntl] calls nothing, [onError] included, and the
    context and the configuration its formatters are bound to carry that
    locale as it is. *)
Theorem supported_locale_kept config cache w :
  closedb (heap w) = true →
  validb (heap w) config = true →
  validb (heap w) DEFAULT_INTL_CONFIG = true →
  let h := heap w in
  truthy (resolved h config "locale") = true →
  areIntlLocalesSupported (resolved h config "locale") = true →
  let r := createIntl config cache w in
  calls r.2 = calls w ∧
  get_prop (heap r.2) r.1 "locale" = resolved h config "locale" ∧
  get_prop (heap r.2) (context_config (heap r.2) r.1) "locale"
    = resolved h config "locale".
Proof.
  intros Hcl Hc Hd h Ht Hs r. unfold r.
  destruct (createIntl_spec config cache w Hcl Hc Hd)
    as (t & i & rc & -> & Hfields & Hcc & Hrc & _).
  fold h in Hfields, Hcc, Hrc |- *. cbn [fst snd heap calls].
  assert (falls_back h config = false) as Hfb
    by (unfold falls_back; by rewrite Ht, Hs).
  split_and!.
  - unfold reported. by rewrite Hfb.
  - rewrite Hfields by apply locale_not_bundle.
    by rewrite resolved_fields_locale, Hfb.
  - rewrite Hcc. unfold get_prop. rewrite (plain_own_props _ _ _ Hrc).
    by rewrite resolved_fields_locale, Hfb.
Qed.

(** ** Keys that [createIntl] adds *)

(** X9.  A property of the configuration named like one of the eleven
    keys that [createIntl] adds, [formatters] or a formatting function,
    does not reach the context: the context holds the new object that
    [createIntl] made under each of these keys.  The configuration that
    the formatting functions are bound to still holds the property as it
    was resolved. *)
Theorem added_keys_override_configuration config cache w :
  closedb (heap w) = true →
  validb (heap w) config = true →
  validb (heap w) DEFAULT_INTL_CONFIG = true →
  let h := heap w in
  let r := createIntl config cache w in
  Forall (λ k, fresh h (get_prop (heap r.2) r.1 k) ∧
               get_prop (heap r.2) (context_config (heap r.2) r.1) k
               = resolved h config k)
    bundle_fields.
Proof.
  intros Hcl Hc Hd h r. apply Forall_forall. intros k Hk. split.
  - unfold r.
    destruct (createIntl_cells config cache w)
      as (g & fm & rf & cl' & Hp & Hfm & Hfr & _ & ->).
    cbn [fst snd heap calls]. pose proof (prefix_length _ _ Hp) as Hlen.
    set (g' := g ++ [Cell rf None]).
    assert (length g < length g') as Hg'
      by (unfold g'; rewrite length_app; simpl; lia).
    rewrite get_prop_at. unfold context_cells. simpl.
    unfold bundle_fields in Hk. rewrite !elem_of_cons, elem_of_nil in Hk.
    destruct_or! Hk; try done; subst;
      rewrite ?lookup_insert_ne by done; rewrite lookup_insert_eq;
      try done; (eexists; split; [done|]; fold h in Hlen; lia).
  - unfold r.
    destruct (createIntl_spec config cache w Hcl Hc Hd)
      as (t & i & rc & -> & _ & Hcc & Hrc & _).
    fold h in Hcc, Hrc |- *. cbn [fst snd heap calls].
    rewrite Hcc. unfold get_prop at 1. rewrite (plain_own_props _ _ _ Hrc).
    apply resolved_fields_other. intros ->.
    by apply locale_not_bundle.
Qed.

(** ** Normalisation followed by context construction *)

(** X10.  In the context built from a normalised configuration, which is
    what the provider always builds it from, the system defaults supply
    none of the eight fields: a normalised configuration has them all,
    [undefined] ones included, and the merge of line 162 takes its own
    properties.  Each of the seven fields other than [locale] is that of
    the normalised configuration; the locale, the fallback and the
    handler that is called are decided by its [locale], [defaultLocale]
    and [onError] alone. *)
Theorem normalised_configuration_shadows_defaults props cache w :
  closedb (heap w) = true →
  props < length (heap w) →
  let n := processIntlConfig props w in
  let field := get_prop (heap n.2) (VRef n.1) in
  let falls :=
    negb (truthy (field "locale"))
    || negb (areIntlLocalesSupported (field "locale")) in
  let r := createIntl (VRef n.1) cache n.2 in
  (∀ k, k ∈ canonical_fields → k ≠ "locale" →
        get_prop (heap r.2) r.1 k = field k) ∧
  get_prop (heap r.2) r.1 "locale"
    = (if falls
       then if truthy (field "defaultLocale") then field "defaultLocale"
            else VStr "en"
       else field "locale") ∧
  calls r.2
    = (if falls && is_function (heap n.2) (field "onError")
       then calls w ++ [Call (field "onError")
                          [createError
                             (missing_locale_message (field "locale")
                                (field "defaultLocale"))]]
       else calls w).
Proof.
  intros Hcl Hc n field falls r.
  destruct (processIntlConfig_shape props w Hc) as (f & df & t & _ & Hp).
  set (raw := get_prop (heap w) (VRef props)) in *.
  set (lit := canonical_literal _ _ _ _ _ _ _ _) in Hp.
  set (h1 := (heap w ++ t) ++ [Cell lit None]) in Hp.
  assert (n = (length (heap w ++ t), World h1 (calls w))) as Hn by done.
  clearbody n. subst n. cbn [fst snd heap calls] in *.
  set (c := VRef (length (heap w ++ t))) in *.
  assert (validb h1 c = true) as Hvc.
  { simpl. apply bool_decide_eq_true. unfold h1. rewrite (length_app _ [_]).
    simpl. lia. }
  assert (own_props h1 c = lit) as Hlit
    by (unfold h1; simpl; by rewrite list_lookup_middle).
  assert (∀ k, field k = default VUndefined (lit !! k)) as Hfield
    by (intros k; unfold field, get_prop; by rewrite Hlit).
  assert (field "onError" = raw "onError") as HonError
    by (rewrite Hfield; unfold lit;
        by rewrite canonical_literal_lookup by (by repeat constructor)).
  assert (validb h1 (field "onError") = true) as Hvo.
  { rewrite HonError. unfold h1. rewrite <- app_assoc.
    apply validb_app. by apply get_prop_valid. }
  clearbody field.
  unfold r. rewrite createIntl_run. cbn [fst snd heap calls].
  set (pre := if decide _ then _ else _).
  set (cache' := if decide _ then _ else _).
  set (FC := formatter_cells _ _).
  set (g := (h1 ++ pre) ++ FC).
  assert (own_props g c = lit) as Hg
    by (unfold g; by rewrite !own_props_app by (by rewrite ?validb_app)).
  assert (∀ k, k ∈ canonical_fields → resolved g c k = field k) as Hres.
  { intros k Hk. unfold resolved. rewrite Hg, Hfield, lookup_union.
    assert (is_Some (lit !! k)) as [v ->]
      by (unfold lit; rewrite canonical_literal_lookup by done; eauto).
    by destruct (own_props g DEFAULT_INTL_CONFIG !! k). }
  assert (falls_back g c = falls) as Hfb
    by (unfold falls_back, falls; by rewrite Hres by (by repeat constructor)).
  set (g' := g ++ [Cell (resolved_fields g c) None]).
  set (cells := context_cells g' (length g) _).
  assert (∀ k, k ∉ bundle_fields →
            get_prop (g' ++ cells) (VRef (length g' + 10)) k
            = default VUndefined (resolved_fields g c !! k)) as Hctx.
  { intros k Hk. rewrite get_prop_at. unfold cells, context_cells. simpl.
    unfold bundle_fields in Hk. rewrite !not_elem_of_cons in Hk.
    destruct_and! Hk. rewrite !lookup_insert_ne by done.
    unfold g'. rewrite list_lookup_middle by done. reflexivity. }
  split_and!.
  - intros k Hk Hne. rewrite Hctx by (by apply canonical_not_bundle).
    rewrite resolved_fields_other by done. by apply Hres.
  - rewrite Hctx by apply locale_not_bundle.
    rewrite resolved_fields_locale, Hfb. unfold fallback_locale.
    by rewrite !Hres by (by repeat constructor).
  - rewrite Hfb, !Hres by (by repeat constructor).
    replace (g ++ [Cell (own_props g c ∪ own_props g DEFAULT_INTL_CONFIG) None])
      with (h1 ++ (pre ++ FC
              ++ [Cell (own_props g c ∪ own_props g DEFAULT_INTL_CONFIG) None]))
      by (unfold g; by rewrite <- !app_assoc).
    by rewrite is_function_app.
Qed.

(** ** Configuration events that change nothing *)

Lemma strict_eq_true a b : strict_eq a b = true → a = b.
Proof.
  destruct a, b; simpl; try done.
  - intros H. f_equal. by apply Bool.eqb_prop.
  - intros H. f_equal. by apply Z.eqb_eq.
  - intros H. f_equal. by apply String.eqb_eq.
  - intros H. f_equal. by apply Nat.eqb_eq.
Qed.

(** An event whose properties have no time zone and agree field by
    field, under [===], with the previous configuration: the state is
    kept, and the store has grown by the normalised configuration that
    was compared. *)
Lemma receive_unchanged props st w prev :
  props < length (heap w) →
  plain (heap w) (prevConfig st) prev →
  dom prev = list_to_set (C := gset string) canonical_fields →
  (∀ k, k ∈ canonical_fields →
        strict_eq (default VUndefined (prev !! k))
          (get_prop (heap w) (VRef props) k) = true) →
  truthy (get_prop (heap w) (VRef props) "timeZone") = false →
  receive props st w = (st, (processIntlConfig props w).2).
Proof.
  intros Hc Hprev Hdom Hsame Htz. rewrite receive_eq.
  destruct (processIntlConfig_shape props w Hc) as (f & df & t & Hb & Hp).
  rewrite Hp. cbn [heap calls snd]. clear Hp.
  unfold inject_both in Hb. rewrite Htz in Hb. unfold ret in Hb.
  injection Hb as <- <- _.
  set (raw := get_prop (heap w) (VRef props)).
  set (lit := canonical_literal _ _ _ _ _ _ _ _).
  set (h' := (heap w ++ t) ++ [Cell lit None]).
  assert (heap w `prefix_of` h') as Hpf
    by (unfold h'; rewrite <- app_assoc; by apply prefix_app_r).
  apply (plain_prefix _ _ _ _ Hpf) in Hprev.
  assert (own_props h' (VRef (length (heap w ++ t))) = lit) as Hlit
    by (unfold h'; simpl; by rewrite list_lookup_middle).
  assert (shallow_equal h' (prevConfig st) (VRef (length (heap w ++ t)))
          = true) as ->; [|done].
  unfold shallow_equal. destruct (strict_eq _ _); [done|].
  rewrite (plain_truthy _ _ _ Hprev). cbn [truthy negb orb].
  rewrite (plain_own_props _ _ _ Hprev), Hlit.
  assert (length (map_to_list lit).*1 = length (map_to_list prev).*1) as ->.
  { rewrite !length_fmap, !length_map_to_list.
    rewrite <- !size_dom, Hdom. unfold lit. by rewrite canonical_literal_dom. }
  rewrite Nat.eqb_refl. cbn [negb].
  apply forallb_forall. intros k Hk.
  rewrite <- (plain_own_props _ _ _ Hprev) in Hk. apply in_keys in Hk.
  rewrite (plain_own_props _ _ _ Hprev) in Hk.
  apply elem_of_dom in Hk. rewrite Hdom, elem_of_list_to_set in Hk.
  unfold get_prop. rewrite (plain_own_props _ _ _ Hprev), Hlit.
  unfold lit. rewrite (canonical_literal_raw raw) by done. by apply Hsame.
Qed.

Lemma same_fields_field h a b k :
  same_fields h a b = true → k ∈ canonical_fields →
  get_prop h b k = get_prop h a k.
Proof.
  unfold same_fields. rewrite forallb_forall. intros Hall Hk.
  symmetry. apply strict_eq_true, Hall. by apply list_elem_of_In.
Qed.

Lemma same_fields_strict_eq h a b k :
  same_fields h a b = true → k ∈ canonical_fields →
  strict_eq (get_prop h a k) (get_prop h b k) = true.
Proof.
  unfold same_fields. rewrite forallb_forall. intros Hall Hk.
  apply Hall. by apply list_elem_of_In.
Qed.

(** Any number of such events keeps the state. *)
Lemma receive_all_unchanged h0 props prev events :
  truthy (get_prop h0 (VRef props) "timeZone") = false →
  dom prev = list_to_set (C := gset string) canonical_fields →
  (∀ k, k ∈ canonical_fields → prev !! k = Some (get_prop h0 (VRef props) k)) →
  Forall (λ e, e < length h0 ∧ same_fields h0 (VRef props) (VRef e) = true)
    events →
  ∀ st w, h0 `prefix_of` heap w → plain (heap w) (prevConfig st) prev →
    (receive_all events st w).1 = replicate (length events) st ∧
    calls (receive_all events st w).2 = calls w.
Proof.
  intros Htz Hdom Hprev Hev. induction Hev as [|e events [He Hsame] _ IH];
    intros st w Hpf Hpl; [done|].
  simpl. unfold bind, ret.
  assert (validb h0 (VRef e) = true) as Hve
    by (simpl; by apply bool_decide_eq_true).
  assert (∀ k, get_prop (heap w) (VRef e) k = get_prop h0 (VRef e) k) as Hraw
    by (intros k; destruct Hpf as [t' ->]; by apply get_prop_app).
  rewrite (receive_unchanged e st w prev); [|..|done| |].
  - pose proof (processIntlConfig_prefix e w) as Hp1.
    assert (calls (processIntlConfig e w).2 = calls w) as Hs1
      by apply silent_processIntlConfig.
    destruct (processIntlConfig e w) as [c w1]. simpl in *.
    destruct (IH st w1) as [Hst Hcl];
      [by etrans|by eapply plain_prefix|].
    destruct (receive_all events st w1) as [rest w2].
    simpl in *. split; [by rewrite Hst|congruence].
  - pose proof (prefix_length _ _ Hpf). lia.
  - done.
  - intros k Hk. rewrite Hprev, Hraw by done. simpl.
    by apply same_fields_strict_eq.
  - rewrite Hraw, (same_fields_field h0 (VRef props)) by
      (done || by repeat constructor). done.
Qed.

(** What [mount] leaves when the properties have no time zone: the
    previous configuration is a new plain object that holds the eight
    fields of the properties as they are. *)
Lemma mount_prevConfig props w :
  props < length (heap w) →
  truthy (get_prop (heap w) (VRef props) "timeZone") = false →
  heap w `prefix_of` heap (mount props w).2 ∧
  plain (heap (mount props w).2) (prevConfig (mount props w).1)
    (canonical_literal (get_prop (heap w) (VRef props) "locale")
       (get_prop (heap w) (VRef props) "timeZone")
       (get_prop (heap w) (VRef props) "formats")
       (get_prop (heap w) (VRef props) "textComponent")
       (get_prop (heap w) (VRef props) "messages")
       (get_prop (heap w) (VRef props) "defaultLocale")
       (get_prop (heap w) (VRef props) "defaultFormats")
       (get_prop (heap w) (VRef props) "onError")).
Proof.
  intros Hc Htz.
  set (raw := get_prop (heap w) (VRef props)).
  assert (∃ st w', mount props w = (st, w') ∧ heap w `prefix_of` heap w' ∧
            plain (heap w') (prevConfig st)
              (canonical_literal (raw "locale") (raw "timeZone")
                 (raw "formats") (raw "textComponent") (raw "messages")
                 (raw "defaultLocale") (raw "defaultFormats") (raw "onError")))
    as (st & w' & -> & H1 & H2); [|done].
  unfold mount, createIntlCache, bind, new_object, new_cell, ret.
  cbn [heap calls].
  set (w0 := World (heap w ++ [Cell ∅ None]) (calls w)).
  pose proof (processIntlConfig_prefix props w0) as Hp1.
  destruct (processIntlConfig props w0) as [c1 w1].
  pose proof (createIntl_prefix (VRef c1) (VRef (length (heap w))) w1) as Hp2.
  destruct (createIntl (VRef c1) (VRef (length (heap w))) w1) as [i w2].
  simpl in Hp1, Hp2.
  assert (heap w `prefix_of` heap w2) as Hpf
    by (etrans; [by apply prefix_app_r|]; by etrans).
  assert (props < length (heap w2)) as Hc2
    by (pose proof (prefix_length _ _ Hpf); lia).
  assert (∀ k, get_prop (heap w2) (VRef props) k = raw k) as Hraw.
  { intros k. destruct Hpf as [t' ->]. apply get_prop_app. simpl.
    by apply bool_decide_eq_true. }
  destruct (processIntlConfig_shape props w2 Hc2) as (f & df & t & Hb & Hp).
  rewrite Hp. unfold inject_both in Hb. rewrite !Hraw in Hb.
  unfold raw at 1 in Hb. rewrite Htz in Hb.
  unfold ret in Hb. injection Hb as <- <- Ht. rewrite !Hraw.
  eexists _, _. split; [done|]. cbn [heap prevConfig]. split.
  - etrans; [exact Hpf|]. rewrite <- app_assoc. by apply prefix_app_r.
  - eexists. split; [done|]. by rewrite list_lookup_middle.
Qed.

(** X11.  The memoisation of the provider, where it works.  When the
    properties at the mount have no time zone and every later event
    brings properties whose eight fields are [===] to theirs, whatever
    their other properties, every event returns the state as it is: the
    provider keeps the context object built at the mount, and nothing is
    called after the mount. *)
Theorem unchanged_properties_keep_context props events w :
  props < length (heap w) →
  truthy (get_prop (heap w) (VRef props) "timeZone") = false →
  Forall (λ e, e < length (heap w)
               ∧ same_fields (heap w) (VRef props) (VRef e) = true) events →
  let m := mount props w in
  let r := lifetime props events w in
  r.1 = replicate (S (length events)) m.1 ∧
  calls r.2 = calls m.2.
Proof.
  intros Hc Htz Hev m r. unfold r, m, lifetime, bind, ret.
  destruct (mount_prevConfig props w Hc Htz) as [Hpf Hpl].
  destruct (mount props w) as [st w1]. cbn [fst snd] in *.
  destruct (receive_all_unchanged (heap w) props _ events Htz
              (canonical_literal_dom _ _ _ _ _ _ _ _)
              (canonical_literal_raw (get_prop (heap w) (VRef props)))
              Hev st w1 Hpf Hpl) as [Hst Hcl].
  destruct (receive_all events st w1) as [rest w2].
  simpl in *. by rewrite Hst.
Qed.

(** ** Configuration events that change a field *)

Lemma both_injected_cases base h tz f df r :
  both_injected base h tz f df r →
  (r.1 = f ∨ fresh base r.1) ∧ (r.2 = df ∨ fresh base r.2).
Proof.
  unfold both_injected, formats_injected. destruct (truthy tz).
  - intros [Hf Hdf]. split.
    + destruct (truthy f && _); [right|by left].
      by destruct Hf as (m & _ & _ & _ & _ & Hfr).
    + destruct (truthy df && _); [right|by left].
      by destruct Hdf as (m & _ & _ & _ & _ & Hfr).
  - intros ->. split; by left.
Qed.

(** X12.  Change detection misses no change.  When one of the eight
    fields of the properties is not [===] to the field that the previous
    configuration holds, the event builds a new context and takes a new
    previous configuration; the cache stays.  This covers a field that
    is [NaN], which is not [===] to itself. *)
Theorem changed_field_rebuilds props st w k :
  closedb (heap w) = true →
  props < length (heap w) →
  validb (heap w) (prevConfig st) = true →
  k ∈ canonical_fields →
  has_own (heap w) (prevConfig st) k = true →
  strict_eq (get_prop (heap w) (prevConfig st) k)
    (get_prop (heap w) (VRef props) k) = false →
  let r := receive props st w in
  fresh (heap w) (intl r.1) ∧
  fresh (heap w) (prevConfig r.1) ∧
  cache r.1 = cache st.
Proof.
  intros Hcl Hc Hprev Hk Hown Hne r. unfold r. rewrite receive_eq.
  assert (∀ k, formats_ok (heap w) (get_prop (heap w) (VRef props) k)) as Hok
    by (intros ?; apply closedb_formats_ok; [done|by apply get_prop_valid]).
  destruct (processIntlConfig_run props w Hc (Hok _) (Hok _))
    as (f & df & t & Hp & Hb).
  rewrite Hp. cbn [heap calls]. clear Hp.
  apply both_injected_cases in Hb as [Hf Hdf]. cbn [fst snd] in Hf, Hdf.
  set (raw := get_prop (heap w) (VRef props)) in *.
  set (lit := canonical_literal _ _ _ _ _ _ _ _).
  set (h' := (heap w ++ t) ++ [Cell lit None]).
  set (c := length (heap w ++ t)).
  assert (heap w `prefix_of` h') as Hpf
    by (unfold h'; rewrite <- app_assoc; by apply prefix_app_r).
  assert (fresh (heap w) (VRef c)) as Hfc
    by (eexists; split; [done|]; unfold c; rewrite length_app; lia).
  assert (get_prop h' (prevConfig st) k = get_prop (heap w) (prevConfig st) k)
    as Hpk by (destruct Hpf as [t' ->]; by apply get_prop_app).
  assert (validb (heap w) (get_prop (heap w) (prevConfig st) k) = true) as Hvk
    by (by apply get_prop_valid).
  assert (strict_eq (get_prop h' (prevConfig st) k) (get_prop h' (VRef c) k)
          = false) as Hfield.
  { rewrite Hpk. unfold h', c. rewrite normalised_field_read.
    unfold lit. rewrite canonical_literal_lookup by done.
    unfold canonical_fields in Hk. rewrite !elem_of_cons, elem_of_nil in Hk.
    destruct_or! Hk; try done; subst; simpl; try done.
    - destruct Hf as [->|Hf]; [done|]. by apply (strict_eq_valid_fresh (heap w)).
    - destruct Hdf as [->|Hdf]; [done|].
      by apply (strict_eq_valid_fresh (heap w)). }
  assert (shallow_equal h' (prevConfig st) (VRef c) = false) as ->.
  { unfold shallow_equal.
    rewrite (strict_eq_valid_fresh (heap w)) by done.
    destruct (negb (truthy _) || _); [done|].
    destruct (negb (Nat.eqb _ _)); [done|].
    apply (forallb_false _ _ k); [|done].
    apply in_keys. rewrite (own_props_prefix (heap w) h') by done.
    by apply bool_decide_eq_true in Hown. }
  pose proof (createIntl_fresh (VRef c) (cache st) (World h' (calls w)))
    as (i & Hi & Hl).
  pose proof (prefix_length _ _ Hpf) as Hlen.
  destruct (createIntl _ _ _) as [intl' w2]. simpl in *. subst intl'.
  split_and!; [eexists; split; [done|]; lia|done|done].
Qed.

(** ** The states of a provider *)

Lemma createIntl_plain config cache w :
  ∃ ps, plain (heap (createIntl config cache w).2)
          (createIntl config cache w).1 ps.
Proof.
  destruct (createIntl_cells config cache w)
    as (g & fm & rf & cl' & _ & _ & _ & _ & ->).
  cbn [fst snd heap]. eexists _, _. split; [done|].
  rewrite lookup_at. reflexivity.
Qed.

Lemma processIntlConfig_plain config w :
  config < length (heap w) →
  ∃ lit, plain (heap (processIntlConfig config w).2)
           (VRef (processIntlConfig config w).1) lit ∧
         dom lit = list_to_set (C := gset string) canonical_fields.
Proof.
  intros Hc.
  destruct (processIntlConfig_shape config w Hc) as (f & df & t & _ & ->).
  cbn [fst snd heap]. eexists. split.
  - eexists. split; [done|]. by rewrite list_lookup_middle.
  - apply canonical_literal_dom.
Qed.

Lemma well_formed_prefix h h' st :
  h `prefix_of` h' → well_formed h st → well_formed h' st.
Proof.
  intros Hp [[ps Hi] (lit & Hl & Hd)]. split.
  - exists ps. by eapply plain_prefix.
  - exists lit. split; [by eapply plain_prefix|done].
Qed.

Lemma receive_well_formed props st w :
  props < length (heap w) → well_formed (heap w) st →
  heap w `prefix_of` heap (receive props st w).2 ∧
  well_formed (heap (receive props st w).2) (receive props st w).1.
Proof.
  intros Hc Hst. rewrite receive_eq.
  pose proof (processIntlConfig_prefix props w) as Hp.
  pose proof (processIntlConfig_plain props w Hc) as Hpl.
  destruct (processIntlConfig props w) as [config w1]. simpl in Hp, Hpl.
  destruct (shallow_equal _ _ _); simpl.
  - split; [done|]. by eapply well_formed_prefix.
  - pose proof (createIntl_prefix (VRef config) (cache st) w1) as Hp1.
    pose proof (createIntl_plain (VRef config) (cache st) w1) as Hi.
    destruct (createIntl _ _ w1) as [i w2]. simpl in *.
    split; [by etrans|]. split; [done|].
    destruct Hpl as (lit & Hl & Hd). exists lit.
    split; [by eapply plain_prefix|done].
Qed.

Lemma receive_all_well_formed h0 events :
  Forall (λ e, e < length h0) events →
  ∀ st w, h0 `prefix_of` heap w → well_formed (heap w) st →
  heap w `prefix_of` heap (receive_all events st w).2 ∧
  length (receive_all events st w).1 = length events ∧
  Forall (well_formed (heap (receive_all events st w).2))
    (receive_all events st w).1.
Proof.
  intros Hev. induction Hev as [|e events He _ IH]; intros st w Hpf Hst; simpl.
  - by split_and!.
  - assert (e < length (heap w)) as He'
      by (pose proof (prefix_length _ _ Hpf); lia).
    destruct (receive_well_formed e st w He' Hst) as [Hp Hst'].
    unfold bind, ret. destruct (receive e st w) as [st' w1]. simpl in *.
    destruct (IH st' w1) as (Hp' & Hlen & Hall); [by etrans|done|].
    destruct (receive_all events st' w1) as [rest w2]. simpl in *.
    split_and!; [by etrans|by rewrite Hlen|].
    constructor; [by eapply well_formed_prefix|done].
Qed.

Lemma mount_well_formed props w :
  props < length (heap w) →
  heap w `prefix_of` heap (mount props w).2 ∧
  well_formed (heap (mount props w).2) (mount props w).1.
Proof.
  intros Hc.
  assert (∃ st w', mount props w = (st, w') ∧ heap w `prefix_of` heap w' ∧
            well_formed (heap w') st) as (st & w' & -> & H1 & H2); [|done].
  unfold mount, createIntlCache, bind, new_object, new_cell, ret.
  cbn [heap calls].
  set (w0 := World (heap w ++ [Cell ∅ None]) (calls w)).
  pose proof (processIntlConfig_prefix props w0) as Hp1.
  destruct (processIntlConfig props w0) as [c1 w1].
  pose proof (createIntl_prefix (VRef c1) (VRef (length (heap w))) w1) as Hp2.
  pose proof (createIntl_plain (VRef c1) (VRef (length (heap w))) w1)
    as [ps Hi].
  destruct (createIntl (VRef c1) (VRef (length (heap w))) w1) as [i w2].
  simpl in Hp1, Hp2, Hi.
  assert (heap w `prefix_of` heap w2) as Hpf
    by (etrans; [by apply prefix_app_r|]; by etrans).
  assert (props < length (heap w2)) as Hc2
    by (pose proof (prefix_length _ _ Hpf); lia).
  pose proof (processIntlConfig_prefix props w2) as Hp3.
  pose proof (processIntlConfig_plain props w2 Hc2) as Hpl.
  destruct (processIntlConfig props w2) as [c2 w3]. simpl in Hp3, Hpl.
  eexists _, _. split; [done|]. split; [by etrans|].
  split; [|done]. exists ps. by eapply plain_prefix.
Qed.

(** X13.  In every state of a provider, after the mount and after every
    configuration event, the context is an object of the store, never
    [undefined] as the optional [intl] of the [State] interface allows,
    and the previous configuration is a plain object with exactly the
    eight fields. *)
Theorem states_well_formed props events w :
  Forall (λ e, e < length (heap w)) (props :: events) →
  let r := lifetime props events w in
  length r.1 = S (length events) ∧
  Forall (λ st, well_formed (heap r.2) st ∧ truthy (intl st) = true) r.1.
Proof.
  intros Hall r. apply Forall_cons in Hall as [Hc Hev].
  unfold r, lifetime, bind, ret.
  destruct (mount_well_formed props w Hc) as [Hpf Hst].
  destruct (mount props w) as [st w1]. cbn [fst snd] in *.
  destruct (receive_all_well_formed (heap w) events Hev st w1 Hpf Hst)
    as (Hp & Hlen & Hwf).
  destruct (receive_all events st w1) as [rest w2]. simpl in *.
  split; [by rewrite Hlen|].
  assert (Forall (well_formed (heap w2)) (st :: rest)) as Hall
    by (constructor; [by eapply well_formed_prefix|done]).
  eapply Forall_impl; [exact Hall|]. intros st' Hst'. split; [done|].
  destruct Hst' as [[ps Hi] _]. by eapply plain_truthy.
Qed.

(** ** The calls of a provider *)





(** ** Events with a time zone to inject *)

(** X15.  When the properties have a truthy [timeZone] and a truthy
    [date] or [time] preset map under [formats] or [defaultFormats],
    [getDerivedStateFromProps] never returns [null]: the normalised
    configuration holds a new object under that group, which is [===] to
    nothing that the previous configuration holds there, so the result
    is always a new context together with the new configuration. *)
Theorem timeZone_event_rebuilds props st w group :
  closedb (heap w) = true →
  props < length (heap w) →
  validb (heap w) (prevConfig st) = true →
  has_own (heap w) (prevConfig st) group = true →
  group ∈ ["formats"; "defaultFormats"] →
  injects (heap w) (VRef props) group = true →
  ∃ u, (getDerivedStateFromProps props st w).1 = Some u ∧
       fresh (heap w) (next_intl u) ∧
       fresh (heap w) (next_prevConfig u).
Proof.
  intros Hcl Hc Hprev Hown Hg Hinj.
  unfold getDerivedStateFromProps, bind, shallowEquals, ret.
  assert (∀ k, formats_ok (heap w) (get_prop (heap w) (VRef props) k)) as Hok
    by (intros ?; apply closedb_formats_ok; [done|by apply get_prop_valid]).
  destruct (processIntlConfig_run props w Hc (Hok _) (Hok _))
    as (f & df & t & Hp & Hb).
  rewrite Hp. cbn [heap calls]. clear Hp.
  unfold injects in Hinj. apply andb_true_iff in Hinj as [Hinj Hdt].
  apply andb_true_iff in Hinj as [Htz Hgr].
  unfold both_injected in Hb. rewrite Htz in Hb. destruct Hb as [Hf Hdf].
  simpl in Hf, Hdf.
  set (lit := canonical_literal _ _ _ _ _ _ _ _).
  set (h' := (heap w ++ t) ++ [Cell lit None]).
  set (c := length (heap w ++ t)).
  assert (fresh (heap w) (VRef c)) as Hfc
    by (eexists; split; [done|]; unfold c; rewrite length_app; lia).
  assert (fresh (heap w) (get_prop h' (VRef c) group)) as Hfg.
  { unfold h', c. rewrite normalised_field_read. unfold lit.
    rewrite !elem_of_cons, elem_of_nil in Hg.
    destruct_or! Hg; try done; subst;
      rewrite canonical_literal_lookup by (by repeat constructor); simpl.
    - unfold formats_injected in Hf. rewrite Hgr, Hdt in Hf.
      by destruct Hf as (m & _ & _ & _ & _ & Hfr).
    - unfold formats_injected in Hdf. rewrite Hgr, Hdt in Hdf.
      by destruct Hdf as (m & _ & _ & _ & _ & Hfr). }
  assert (heap w `prefix_of` h') as Hpf
    by (unfold h'; rewrite <- app_assoc; by apply prefix_app_r).
  rewrite (shallow_equal_fresh_field (heap w) h' _ _ group) by done.
  cbn [negb].
  pose proof (createIntl_fresh (VRef c) (cache st) (World h' (calls w)))
    as (i & Hi & Hl).
  pose proof (prefix_length _ _ Hpf) as Hlen.
  destruct (createIntl _ _ _) as [intl' w2]. simpl in *. subst intl'.
  eexists. split; [done|]. simpl.
  split; [eexists; split; [done|]; lia|done].
Qed.

End Provider.


(** ** The example store: locale fallback and merging *)

Lemma missing_locale_reported_witness :
  closedb (heap ex_world) = true ∧
  validb (heap ex_world) (VRef 12) = true ∧
  validb (heap ex_world) ex_DEFAULT_INTL_CONFIG = true ∧
  falls_back ex_DEFAULT_INTL_CONFIG ex_supported (heap ex_world) (VRef 12)
    = true ∧
  is_function (heap ex_world)
    (resolved ex_DEFAULT_INTL_CONFIG (heap ex_world) (VRef 12) "onError")
    = true ∧
  let '(intl, w') :=
    createIntl ex_DEFAULT_INTL_CONFIG ex_supported ex_createError ex_ToString
      (VRef 12) VUndefined ex_world in
  calls w' =
    [Call (VRef 8)
       [ex_createError
          ("Missing locale data for locale: " +:+ dquote +:+ "xx-ZZ" +:+ dquote
           +:+ ". Using default locale: " +:+ dquote +:+ "de" +:+ dquote
           +:+ " as fallback.")]] ∧
  get_prop (heap w') intl "locale" = VStr "de".
Proof.
  split; [by vm_compute|]. split; [by vm_compute|]. split; [by vm_compute|].
  split; [by vm_compute|]. split; [by vm_compute|].
  pose proof (missing_locale_reported ex_DEFAULT_INTL_CONFIG ex_supported
                ex_createError ex_ToString (VRef 12) VUndefined ex_world
                eq_refl eq_refl eq_refl eq_refl eq_refl) as H.
  destruct (createIntl _ _ _ _ _ _ _) as [intl w'].
  destruct H as (Hcalls & _ & _ & Hlocale & _).
  split; [exact Hcalls|exact Hlocale].
Defined.

Lemma missing_locale_unreported_witness :
  closedb (heap ex_world) = true ∧
  validb (heap ex_world) (VRef 13) = true ∧
  validb (heap ex_world) ex_DEFAULT_INTL_CONFIG = true ∧
  falls_back ex_DEFAULT_INTL_CONFIG ex_supported (heap ex_world) (VRef 13)
    = true ∧
  is_function (heap ex_world)
    (resolved ex_DEFAULT_INTL_CONFIG (heap ex_world) (VRef 13) "onError")
    = false ∧
  let '(intl, w') :=
    createIntl ex_DEFAULT_INTL_CONFIG ex_supported ex_createError ex_ToString
      (VRef 13) VUndefined ex_world in
  calls w' = [] ∧
  get_prop (heap w') intl "locale" = VStr "en".
Proof.
  split; [by vm_compute|]. split; [by vm_compute|]. split; [by vm_compute|].
  split; [by vm_compute|]. split; [by vm_compute|].
  pose proof (missing_locale_unreported ex_DEFAULT_INTL_CONFIG ex_supported
                ex_createError ex_ToString (VRef 13) VUndefined ex_world
                eq_refl eq_refl eq_refl eq_refl eq_refl) as H.
  destruct (createIntl _ _ _ _ _ _ _) as [intl w'].
  destruct H as (Hcalls & _ & _ & Hlocale & _).
  split; [exact Hcalls|exact Hlocale].
Defined.

Lemma configuration_merged_over_defaults_witness :
  closedb (heap ex_world) = true ∧
  validb (heap ex_world) (VRef 10) = true ∧
  validb (heap ex_world) ex_DEFAULT_INTL_CONFIG = true ∧
  falls_back ex_DEFAULT_INTL_CONFIG ex_supported (heap ex_world) (VRef 10)
    = false ∧
  let '(intl, w') :=
    createIntl ex_DEFAULT_INTL_CONFIG ex_supported ex_createError ex_ToString
      (VRef 10) VUndefined ex_world in
  get_prop (heap w') (context_config (heap w') intl) "locale" = VStr "en" ∧
  ("locale" ∉ bundle_fields → get_prop (heap w') intl "locale" = VStr "en").
Proof.
  split; [by vm_compute|]. split; [by vm_compute|]. split; [by vm_compute|].
  split; [by vm_compute|].
  exact (configuration_merged_over_defaults ex_DEFAULT_INTL_CONFIG
           ex_supported ex_createError ex_ToString (VRef 10) VUndefined
           ex_world "locale" eq_refl eq_refl eq_refl (λ _, eq_refl)).
Defined.

(** C6, as stated, fails.  The canonical configuration made from the
    properties at location 12 has the key [formats] with the value
    [undefined], as it has every field that the properties lack, and the
    context built from it has [undefined] there, not the default
    presets. *)
Lemma undefined_field_not_defaulted :
  ¬ (let canonical := processIntlConfig 12 ex_world in
     let r :=
       createIntl ex_DEFAULT_INTL_CONFIG ex_supported ex_createError
         ex_ToString (VRef canonical.1) VUndefined canonical.2 in
     ∀ k, k ∈ ["formats"; "messages"; "timeZone"; "textComponent";
               "defaultLocale"; "defaultFormats"; "onError"] →
       get_prop (heap r.2) r.1 k
       = if decide (get_prop (heap canonical.2) (VRef canonical.1) k
                    = VUndefined)
         then get_prop (heap canonical.2) ex_DEFAULT_INTL_CONFIG k
         else get_prop (heap canonical.2) (VRef canonical.1) k).
Proof.
  intros H. cbv zeta in H.
  specialize (H "formats" ltac:(by repeat constructor)).
  by vm_compute in H.
Qed.

Lemma fallback_keeps_other_fields_witness :
  closedb (heap ex_world) = true ∧
  validb (heap ex_world) (VRef 12) = true ∧
  validb (heap ex_world) ex_DEFAULT_INTL_CONFIG = true ∧
  falls_back ex_DEFAULT_INTL_CONFIG ex_supported (heap ex_world) (VRef 12)
    = true ∧
  let '(intl, w') :=
    createIntl ex_DEFAULT_INTL_CONFIG ex_supported ex_createError ex_ToString
      (VRef 12) VUndefined ex_world in
  get_prop (heap w') intl "messages" = VRef 5 ∧
  get_prop (heap w') (context_config (heap w') intl) "messages" = VRef 5.
Proof.
  split; [by vm_compute|]. split; [by vm_compute|]. split; [by vm_compute|].
  split; [by vm_compute|].
  pose proof (fallback_keeps_other_fields ex_DEFAULT_INTL_CONFIG ex_supported
                ex_createError ex_ToString (VRef 12) VUndefined ex_world
                eq_refl eq_refl eq_refl eq_refl) as H.
  destruct (createIntl _ _ _ _ _ _ _) as [intl w'].
  destruct H as (_ & _ & Hm). exact (Hm eq_refl).
Defined.

(** ** The example store: two renders *)

(** C1 at the failing input.  A provider is mounted with the properties
    at location 10 and then receives these very properties twice.  The
    normalised configurations (at 43, 48 and 70) are deeply equal and yet
    never shallowly equal, and each invocation of the guard builds
    another context (at 65, then at 87) instead of returning the previous
    one (at 38). *)
Theorem same_properties_rebuild_context :
  let r :=
    lifetime ex_DEFAULT_INTL_CONFIG ex_supported ex_createError ex_ToString
      10 [10; 10] ex_world in
  r.1 = [mkState (VRef 16) (VRef 38) (VRef 43);
         mkState (VRef 16) (VRef 65) (VRef 48);
         mkState (VRef 16) (VRef 87) (VRef 70)] ∧
  unfold_value 5 (heap r.2) (VRef 48) = unfold_value 5 (heap r.2) (VRef 43) ∧
  unfold_value 5 (heap r.2) (VRef 70) = unfold_value 5 (heap r.2) (VRef 48) ∧
  shallow_equal (heap r.2) (VRef 43) (VRef 48) = false ∧
  shallow_equal (heap r.2) (VRef 48) (VRef 70) = false.
Proof. by vm_compute. Qed.

(** The same provider without [timeZone]: the context of the mount is
    returned at every event, also when [children] changes. *)
Example same_properties_reuse_context_without_timeZone :
  (lifetime ex_DEFAULT_INTL_CONFIG ex_supported ex_createError ex_ToString
     14 [14; 15] ex_world).1
  = [mkState (VRef 16) (VRef 34) (VRef 35);
     mkState (VRef 16) (VRef 34) (VRef 35);
     mkState (VRef 16) (VRef 34) (VRef 35)].
Proof. by vm_compute. Qed.

(** C10 at the failing input.  The properties at locations 10 and 11
    agree on the eight fields and differ in [children]; their normalised
    configurations (at 43 and 48) are deeply equal, but the guard does not
    treat the second as unchanged: it builds another context (at 65)
    instead of returning the previous one (at 38). *)
Theorem other_properties_rebuild_context :
  let r :=
    lifetime ex_DEFAULT_INTL_CONFIG ex_supported ex_createError ex_ToString
      10 [11] ex_world in
  forallb (λ k, strict_eq (get_prop ex_heap (VRef 10) k)
                  (get_prop ex_heap (VRef 11) k)) canonical_fields = true ∧
  strict_eq (get_prop ex_heap (VRef 10) "children")
    (get_prop ex_heap (VRef 11) "children") = false ∧
  r.1 = [mkState (VRef 16) (VRef 38) (VRef 43);
         mkState (VRef 16) (VRef 65) (VRef 48)] ∧
  unfold_value 5 (heap r.2) (VRef 48) = unfold_value 5 (heap r.2) (VRef 43) ∧
  shallow_equal (heap r.2) (VRef 43) (VRef 48) = false.
Proof. by vm_compute. Qed.

(** ** The example store: further properties *)

Lemma fields_passed_through_witness :
  closedb (heap ex_world) = true ∧
  10 < length (heap ex_world) ∧
  "defaultFormats" ∈ canonical_fields ∧
  injects (heap ex_world) (VRef 10) "defaultFormats" = false ∧
  get_prop (heap (processIntlConfig 10 ex_world).2)
    (VRef (processIntlConfig 10 ex_world).1) "defaultFormats"
  = get_prop (heap ex_world) (VRef 10) "defaultFormats".
Proof.
  split_and!;
    [by vm_compute|vm_compute; lia|by repeat constructor|by vm_compute|].
  apply (fields_passed_through 10 ex_world "defaultFormats");
    [by vm_compute|vm_compute; lia|by repeat constructor
    |intros _; by vm_compute].
Defined.

Lemma injection_keeps_other_keys_witness :
  closedb (heap ex_world) = true ∧
  10 < length (heap ex_world) ∧
  "formats" ∈ ["formats"; "defaultFormats"] ∧
  injects (heap ex_world) (VRef 10) "formats" = true ∧
  let h := heap ex_world in
  let before := get_prop h (VRef 10) "formats" in
  let h' := heap (processIntlConfig 10 ex_world).2 in
  let after := get_prop h' (VRef (processIntlConfig 10 ex_world).1) "formats" in
  fresh h after ∧
  (∃ m, plain h' after m) ∧
  (∀ k, k ≠ "date" → k ≠ "time" →
        own_props h' after !! k = own_props h before !! k) ∧
  (∀ slot, slot ∈ ["date"; "time"] →
           truthy (get_prop h before slot) = false →
           own_props h' after !! slot = own_props h before !! slot).
Proof.
  split_and!;
    [by vm_compute|vm_compute; lia|by repeat constructor|by vm_compute|].
  apply (injection_keeps_other_keys 10 ex_world "formats");
    [by vm_compute|vm_compute; lia|by repeat constructor|by vm_compute].
Defined.



Lemma supported_locale_kept_witness :
  closedb (heap ex_world) = true ∧
  validb (heap ex_world) (VRef 10) = true ∧
  validb (heap ex_world) ex_DEFAULT_INTL_CONFIG = true ∧
  let h := heap ex_world in
  truthy (resolved ex_DEFAULT_INTL_CONFIG h (VRef 10) "locale") = true ∧
  ex_supported (resolved ex_DEFAULT_INTL_CONFIG h (VRef 10) "locale") = true ∧
  let r :=
    createIntl ex_DEFAULT_INTL_CONFIG ex_supported ex_createError ex_ToString
      (VRef 10) VUndefined ex_world in
  calls r.2 = calls ex_world ∧
  get_prop (heap r.2) r.1 "locale"
    = resolved ex_DEFAULT_INTL_CONFIG h (VRef 10) "locale" ∧
  get_prop (heap r.2) (context_config (heap r.2) r.1) "locale"
    = resolved ex_DEFAULT_INTL_CONFIG h (VRef 10) "locale".
Proof.
  split_and!; [by vm_compute..|]. intros h.
  split_and!; [by vm_compute..|].
  apply (supported_locale_kept ex_DEFAULT_INTL_CONFIG ex_supported
           ex_createError ex_ToString (VRef 10) VUndefined ex_world);
    by vm_compute.
Defined.

Lemma added_keys_override_configuration_witness :
  closedb (heap ex_world) = true ∧
  validb (heap ex_world) (VRef 12) = true ∧
  validb (heap ex_world) ex_DEFAULT_INTL_CONFIG = true ∧
  let h := heap ex_world in
  let r :=
    createIntl ex_DEFAULT_INTL_CONFIG ex_supported ex_createError ex_ToString
      (VRef 12) VUndefined ex_world in
  Forall (λ k, fresh h (get_prop (heap r.2) r.1 k) ∧
               get_prop (heap r.2) (context_config (heap r.2) r.1) k
               = resolved ex_DEFAULT_INTL_CONFIG h (VRef 12) k)
    bundle_fields.
Proof.
  split_and!; [by vm_compute..|].
  apply (added_keys_override_configuration ex_DEFAULT_INTL_CONFIG ex_supported
           ex_createError ex_ToString (VRef 12) VUndefined ex_world);
    by vm_compute.
Defined.

Lemma normalised_configuration_shadows_defaults_witness :
  closedb (heap ex_world) = true ∧
  13 < length (heap ex_world) ∧
  let n := processIntlConfig 13 ex_world in
  let field := get_prop (heap n.2) (VRef n.1) in
  let falls :=
    negb (truthy (field "locale")) || negb (ex_supported (field "locale")) in
  let r :=
    createIntl ex_DEFAULT_INTL_CONFIG ex_supported ex_createError ex_ToString
      (VRef n.1) VUndefined n.2 in
  (∀ k, k ∈ canonical_fields → k ≠ "locale" →
        get_prop (heap r.2) r.1 k = field k) ∧
  get_prop (heap r.2) r.1 "locale"
    = (if falls
       then if truthy (field "defaultLocale") then field "defaultLocale"
            else VStr "en"
       else field "locale") ∧
  calls r.2
    = (if falls && is_function (heap n.2) (field "onError")
       then calls ex_world
              ++ [Call (field "onError")
                    [ex_createError
                       (missing_locale_message ex_ToString (field "locale")
                          (field "defaultLocale"))]]
       else calls ex_world).
Proof.
  split_and!; [by vm_compute|vm_compute; lia|].
  apply (normalised_configuration_shadows_defaults ex_DEFAULT_INTL_CONFIG
           ex_supported ex_createError ex_ToString 13 VUndefined ex_world);
    [by vm_compute|vm_compute; lia].
Defined.

Lemma unchanged_properties_keep_context_witness :
  14 < length (heap ex_world) ∧
  truthy (get_prop (heap ex_world) (VRef 14) "timeZone") = false ∧
  Forall (λ e, e < length (heap ex_world)
               ∧ same_fields (heap ex_world) (VRef 14) (VRef e) = true)
    [14; 15; 14] ∧
  let m :=
    mount ex_DEFAULT_INTL_CONFIG ex_supported ex_createError ex_ToString
      14 ex_world in
  let r :=
    lifetime ex_DEFAULT_INTL_CONFIG ex_supported ex_createError ex_ToString
      14 [14; 15; 14] ex_world in
  r.1 = replicate 4 m.1 ∧ calls r.2 = calls m.2.
Proof.
  assert (Forall (λ e, e < length (heap ex_world)
                       ∧ same_fields (heap ex_world) (VRef 14) (VRef e) = true)
            [14; 15; 14]) as Hev
    by (repeat (apply Forall_cons; split;
                  [split; [vm_compute; lia|by vm_compute]|]);
        apply Forall_nil_2).
  split_and!; [vm_compute; lia|by vm_compute|exact Hev|].
  apply (unchanged_properties_keep_context ex_DEFAULT_INTL_CONFIG ex_supported
           ex_createError ex_ToString 14 [14; 15; 14] ex_world);
    [vm_compute; lia|by vm_compute|exact Hev].
Defined.

Lemma changed_field_rebuilds_witness :
  let m :=
    mount ex_DEFAULT_INTL_CONFIG ex_supported ex_createError ex_ToString
      14 ex_world in
  closedb (heap m.2) = true ∧
  12 < length (heap m.2) ∧
  validb (heap m.2) (prevConfig m.1) = true ∧
  "locale" ∈ canonical_fields ∧
  has_own (heap m.2) (prevConfig m.1) "locale" = true ∧
  strict_eq (get_prop (heap m.2) (prevConfig m.1) "locale")
    (get_prop (heap m.2) (VRef 12) "locale") = false ∧
  let r :=
    receive ex_DEFAULT_INTL_CONFIG ex_supported ex_createError ex_ToString
      12 m.1 m.2 in
  fresh (heap m.2) (intl r.1) ∧
  fresh (heap m.2) (prevConfig r.1) ∧
  cache r.1 = cache m.1.
Proof.
  intros m.
  split_and!;
    [by vm_compute|vm_compute; lia|by vm_compute|by repeat constructor
    |by vm_compute|by vm_compute|].
  apply (changed_field_rebuilds ex_DEFAULT_INTL_CONFIG ex_supported
           ex_createError ex_ToString 12 m.1 m.2 "locale");
    [by vm_compute|vm_compute; lia|by vm_compute|by repeat constructor
    |by vm_compute|by vm_compute].
Defined.

Lemma states_well_formed_witness :
  Forall (λ e, e < length (heap ex_world)) [10; 11; 14] ∧
  let r :=
    lifetime ex_DEFAULT_INTL_CONFIG ex_supported ex_createError ex_ToString
      10 [11; 14] ex_world in
  length r.1 = 3 ∧
  Forall (λ st, well_formed (heap r.2) st ∧ truthy (intl st) = true) r.1.
Proof.
  assert (Forall (λ e, e < length (heap ex_world)) [10; 11; 14]) as Hev
    by (repeat (apply Forall_cons; split; [vm_compute; lia|]);
        apply Forall_nil_2).
  split; [exact Hev|].
  apply (states_well_formed ex_DEFAULT_INTL_CONFIG ex_supported ex_createError
           ex_ToString 10 [11; 14] ex_world Hev).
Defined.

Lemma timeZone_event_rebuilds_witness :
  let m :=
    mount ex_DEFAULT_INTL_CONFIG ex_supported ex_createError ex_ToString
      10 ex_world in
  closedb (heap m.2) = true ∧
  10 < length (heap m.2) ∧
  validb (heap m.2) (prevConfig m.1) = true ∧
  has_own (heap m.2) (prevConfig m.1) "formats" = true ∧
  "formats" ∈ ["formats"; "defaultFormats"] ∧
  injects (heap m.2) (VRef 10) "formats" = true ∧
  ∃ u,
    (getDerivedStateFromProps ex_DEFAULT_INTL_CONFIG ex_supported
       ex_createError ex_ToString 10 m.1 m.2).1 = Some u ∧
    fresh (heap m.2) (next_intl u) ∧
    fresh (heap m.2) (next_prevConfig u).
Proof.
  intros m.
  split_and!;
    [by vm_compute|vm_compute; lia|by vm_compute|by vm_compute
    |by repeat constructor|by vm_compute|].
  apply (timeZone_event_rebuilds ex_DEFAULT_INTL_CONFIG ex_supported
           ex_createError ex_ToString 10 m.1 m.2 "formats");
    [by vm_compute|vm_compute; lia|by vm_compute|by vm_compute
    |by repeat constructor|by vm_compute].
Defined.
